(** * dj-vercel: the Slack webhook that feeds Spotify playlists

    Shallow embedding of the API route of the repository (the two
    revisions of [pages/api/dj.ts] found in the source tree) and the
    properties of its specification.

    - [Rolling] is the revision with an archive and a monthly playlist,
      the settle barrier and the pruner (src/unnamed/part_000).
    - [Single] is the revision with one playlist and a detached promise
      chain (src/pages/api/dj.ts).
    - [isValidSlackWebhookPayload] and [getSpotifyURI] are the same text
      in both revisions and are embedded once.

    JavaScript strings are sequences of UTF-16 code units; they are
    modelled as [list N], one number per code unit, so that [split],
    [slice] and the regular expression see exactly the units the engine
    sees.  [js] turns an ASCII literal into such a string. *)

From Stdlib Require Import ZArith NArith QArith List String Ascii Lia Bool.
From stdpp Require Import gmap list.

Local Open Scope N_scope.

(** ** JavaScript values used by the route *)

Abbreviation jsstring := (list N).

Fixpoint js (s : string) : jsstring :=
  match s with
  | EmptyString => []
  | String c s' => N_of_ascii c :: js s'
  end.

(** Errors the route can see. *)
Inductive exn : Type :=
  | URIError          (* decodeURIComponent on a malformed escape *)
  | TypeError         (* spotify-uri / URL: input not recognised *)
  | WebapiError.      (* a rejected spotify-web-api-node request *)

(** The completion of an evaluation: a value or a thrown exception.  A
    settled promise is represented by the completion it settled with. *)
Inductive Completion (A : Type) : Type :=
  | Normal (a : A)
  | Throw (e : exn).
Arguments Normal {A} a.
Arguments Throw {A} e.

(** A property value of the object the normalizer builds, and the result
    of the extractor: [undefined] or a string.  The normalizer of dj.ts
    always runs, and so every object the route of dj.ts validates holds
    such values only; in the later revision this is so in local
    development.  Outside local development the later revision validates
    the body as the framework parsed it; such a body is covered here as
    far as its properties are strings or absent. *)
Inductive JsVal : Type :=
  | undefined
  | str (s : jsstring).

(** [!!v] for the values above: the empty string and [undefined] are
    falsy. *)
Definition truthy (v : JsVal) : bool :=
  match v with
  | undefined => false
  | str [] => false
  | str (_ :: _) => true
  end.

(** [s.split(sep)] for a one-unit separator: never empty, the pieces
    between the separators in order. *)
Fixpoint split (sep : N) (s : jsstring) : list jsstring :=
  match s with
  | [] => [[]]
  | c :: s' =>
      if c =? sep then [] :: split sep s'
      else match split sep s' with
           | [] => [[c]]
           | piece :: pieces => (c :: piece) :: pieces
           end
  end.

(** [s.slice(0, -1)]: all units but the last. *)
Definition slice_0_m1 (s : jsstring) : jsstring := removelast s.

Definition amp : N := 38.     (* "&" *)
Definition equals : N := 61.  (* "=" *)
Definition space : N := 32.   (* " " *)
Definition percent : N := 37. (* "%" *)

(** ** Payload normalizer and validator *)

(** [const [key, value] = cur.split("=")]: the first two pieces; the
    second is [undefined] when there is none. *)
Definition key_value (cur : jsstring) : jsstring * JsVal :=
  match split equals cur with
  | [] => ([], undefined)
  | key :: [] => (key, undefined)
  | key :: value :: _ => (key, str value)
  end.

(** The reducer [(prev, cur) => ({...prev, [key]: value})]. *)
Definition reducer (prev : gmap (list N) JsVal) (cur : jsstring)
  : gmap (list N) JsVal :=
  let '(key, value) := key_value cur in <[key := value]> prev.

(** [payload.split("&").reduce(reducer, {})]. *)
Definition split_reduce (payload : jsstring) : gmap (list N) JsVal :=
  foldl reducer ∅ (split amp payload).

(** What [tokens] can be: the raw string or a key/value object. *)
Inductive Tokens : Type :=
  | TString (s : jsstring)
  | TObject (m : gmap (list N) JsVal).

(** [payload[key]] for the keys the route reads ([token], [channel_id],
    [text]): a string has no such property. *)
Definition get_prop (payload : Tokens) (key : jsstring) : JsVal :=
  match payload with
  | TString _ => undefined
  | TObject m => default undefined (m !! key)
  end.

Definition MUST_HAVE_KEYS : list jsstring :=
  [js "token"; js "channel_id"; js "text"].

Definition isValidSlackWebhookPayload (payload : Tokens) : bool :=
  forallb (fun key => truthy (get_prop payload key)) MUST_HAVE_KEYS.

(** ** decodeURIComponent

    ECMAScript's [Decode] with an empty reserved set.  Every "%" must be
    followed by two hexadecimal digits; an octet with no leading 1 bit is
    the unit itself, an octet that opens a UTF-8 sequence of [n] octets
    must be followed by [n - 1] further escapes and the octets must be
    well-formed UTF-8, whose code point is then written in UTF-16.
    Anything else is a [URIError]. *)

Definition hex_digit (c : N) : option N :=
  if (48 <=? c) && (c <=? 57) then Some (c - 48)
  else if (65 <=? c) && (c <=? 70) then Some (c - 55)
  else if (97 <=? c) && (c <=? 102) then Some (c - 87)
  else None.

Inductive Piece : Type :=
  | Unit (c : N)     (* a code unit outside any escape *)
  | Octet (b : N).   (* the octet of one "%XY" escape *)

Fixpoint escapes (s : jsstring) : option (list Piece) :=
  match s with
  | [] => Some []
  | c :: rest =>
      if c =? percent then
        match rest with
        | h1 :: h2 :: rest' =>
            match hex_digit h1, hex_digit h2, escapes rest' with
            | Some d1, Some d2, Some ps => Some (Octet (16 * d1 + d2) :: ps)
            | _, _, _ => None
            end
        | _ => None
        end
      else
        match escapes rest with
        | Some ps => Some (Unit c :: ps)
        | None => None
        end
  end.

Definition in_range (lo hi b : N) : bool := (lo <=? b) && (b <=? hi).

(** UTF16EncodeCodePoint. *)
Definition utf16 (v : N) : jsstring :=
  if v <? 65536 then [v]
  else [55296 + (v - 65536) / 1024; 56320 + (v - 65536) mod 1024].

(** Well-formed two, three and four octet sequences (Unicode, table 3-7)
    and their code points. *)
Definition utf8_2 (b b1 : N) : option N :=
  if in_range 194 223 b && in_range 128 191 b1
  then Some ((b - 192) * 64 + (b1 - 128)) else None.

Definition utf8_3 (b b1 b2 : N) : option N :=
  let lo := if b =? 224 then 160 else 128 in
  let hi := if b =? 237 then 159 else 191 in
  if in_range 224 239 b && in_range lo hi b1 && in_range 128 191 b2
  then Some ((b - 224) * 4096 + (b1 - 128) * 64 + (b2 - 128)) else None.

Definition utf8_4 (b b1 b2 b3 : N) : option N :=
  let lo := if b =? 240 then 144 else 128 in
  let hi := if b =? 244 then 143 else 191 in
  if in_range 240 244 b && in_range lo hi b1 && in_range 128 191 b2
     && in_range 128 191 b3
  then Some ((b - 240) * 262144 + (b1 - 128) * 4096 + (b2 - 128) * 64
             + (b3 - 128))
  else None.

Definition emit (units : option jsstring) (rest : option jsstring)
  : option jsstring :=
  match units, rest with
  | Some u, Some r => Some (u ++ r)
  | _, _ => None
  end.

Fixpoint decode_pieces (ps : list Piece) : option jsstring :=
  match ps with
  | [] => Some []
  | Unit c :: ps' => emit (Some [c]) (decode_pieces ps')
  | Octet b :: ps' =>
      if b <? 128 then emit (Some [b]) (decode_pieces ps')
      else if b <? 192 then None
      else if b <? 224 then
        match ps' with
        | Octet b1 :: ps2 => emit (utf16 <$> utf8_2 b b1) (decode_pieces ps2)
        | _ => None
        end
      else if b <? 240 then
        match ps' with
        | Octet b1 :: Octet b2 :: ps3 =>
            emit (utf16 <$> utf8_3 b b1 b2) (decode_pieces ps3)
        | _ => None
        end
      else if b <? 248 then
        match ps' with
        | Octet b1 :: Octet b2 :: Octet b3 :: ps4 =>
            emit (utf16 <$> utf8_4 b b1 b2 b3) (decode_pieces ps4)
        | _ => None
        end
      else None
  end.

Definition decodeURIComponent (s : jsstring) : Completion jsstring :=
  match escapes s with
  | Some ps =>
      match decode_pieces ps with
      | Some r => Normal r
      | None => Throw URIError
      end
  | None => Throw URIError
  end.

(** ** The URL pattern

    The pattern of the source is one capturing group around
    [https?:\/\/[^ ]*], without flags.  [URL_REGEX s] is group 1 of the
    leftmost match ([textTokens[1]]), [None] when [match] gives [null]:
    the first place where "http://" or "https://" starts, and from there
    the longest run of units other than the space. *)

Fixpoint starts_with (p s : jsstring) : bool :=
  match p, s with
  | [], _ => true
  | _ :: _, [] => false
  | a :: p', b :: s' => (a =? b) && starts_with p' s'
  end.

Definition non_space (c : N) : bool := negb (c =? space).

Fixpoint take_while (f : N -> bool) (s : jsstring) : jsstring :=
  match s with
  | [] => []
  | c :: s' => if f c then c :: take_while f s' else []
  end.

Definition url_here (s : jsstring) : bool :=
  starts_with (js "http://") s || starts_with (js "https://") s.

Fixpoint URL_REGEX (s : jsstring) : option jsstring :=
  match s with
  | [] => None
  | _ :: s' =>
      if url_here s then Some (take_while non_space s) else URL_REGEX s'
  end.

(** ** The world outside the route

    The music service holds the playlists; the route reaches it through
    spotify-web-api-node and writes to the console.  Each request either
    takes effect or is rejected without effect: [outcomes] lists, in the
    order the requests are issued, which ones the service accepts (every
    request after the end of the list is accepted).  [trace] is the
    chronological record of requests and console lines. *)

Record TrackObject : Type := { uri : jsstring }.

(** An item of [getPlaylistTracks]: [added_at] is kept as the number
    [new Date(track.added_at).getTime()], milliseconds since the epoch. *)
Record PlaylistTrack : Type := { track : TrackObject; added_at : Z }.

Inductive LogMsg : Type :=
  | MsgAuthorizeURL                         (* getSpotifyAuthorizeURL *)
  | MsgText (s : jsstring)                  (* console.log(spotifyURL) *)
  | MsgJson                                 (* "json", json *)
  | MsgAdded (spotifyURL : jsstring)        (* `Added ... to playlist` *)
  | MsgFailedToAdd (spotifyURL : jsstring) (e : exn)
  | MsgPruned (n : nat) (playlistID : jsstring)
  | MsgBody                                 (* JSON.stringify(req.body) *)
  | MsgData                                 (* the refresh response *)
  | MsgAddedTracks                          (* "Added tracks to the playlist!" *)
  | MsgSomethingWentWrong (e : exn).

Inductive Event : Type :=
  | ApiRefreshAccessToken
  | ApiAddTracksToPlaylist (playlistID : jsstring) (tracks : list jsstring)
  | ApiGetPlaylistTracks (playlistID : jsstring) (limit : nat)
  | ApiRemoveTracksFromPlaylist (playlistID : jsstring) (uris : list jsstring)
  | ConsoleLog (m : LogMsg)
  | ConsoleError (m : LogMsg).

Record World : Type := mkWorld {
  playlists : gmap (list N) (list PlaylistTrack);
  outcomes : list bool;
  now : Z;
  trace : list Event
}.

(** The entries of a playlist; an identifier the service has never seen
    has none. *)
Definition entries (w : World) (playlistID : jsstring) : list PlaylistTrack :=
  default [] (playlists w !! playlistID).

(** *** The monad of the route: state and exceptions *)

Definition M (A : Type) : Type := World -> Completion A * World.

Global Instance M_ret : MRet M := fun A a w => (Normal a, w).

Global Instance M_bind : MBind M := fun A B f m w =>
  match m w with
  | (Normal a, w') => f a w'
  | (Throw e, w') => (Throw e, w')
  end.

Definition throw {A} (e : exn) : M A := fun w => (Throw e, w).

(** [try { body } catch (e) { handler }]. *)
Definition try_catch {A} (body : M A) (handler : exn -> M A) : M A :=
  fun w =>
    match body w with
    | (Normal a, w') => (Normal a, w')
    | (Throw e, w') => handler e w'
    end.

(** A value computed without looking at the world, or its exception. *)
Definition lift {A} (c : Completion A) : M A := fun w => (c, w).

(** [await p] on a settled promise. *)
Definition await {A} (p : Completion A) : M A := lift p.

(** [Promise.allSettled]: fulfilled with every outcome, never rejected. *)
Definition allSettled {A} (ps : list (Completion A))
  : Completion (list (Completion A)) := Normal ps.

Definition record (e : Event) : M unit := fun w =>
  (Normal tt, mkWorld (playlists w) (outcomes w) (now w) (trace w ++ [e])).

Definition console_log (m : LogMsg) : M unit := record (ConsoleLog m).
Definition console_error (m : LogMsg) : M unit := record (ConsoleError m).

Definition get_now : M Z := fun w => (Normal (now w), w).

(** Whether the service accepts the next request. *)
Definition accepted (w : World) : bool :=
  match outcomes w with
  | [] => true
  | b :: _ => b
  end.

(** What the service does with an accepted request: the answer and the
    playlists afterwards. *)
Definition Service (A : Type) : Type :=
  World -> A * gmap (list N) (list PlaylistTrack).

(** One request to the service: it is recorded, the next outcome is
    consumed, and the promise settles accordingly.  Issuing a request
    never throws; only awaiting its promise can. *)
Definition request {A} (e : Event) (serve : Service A)
  : M (Completion A) := fun w =>
  let tr := trace w ++ [e] in
  if accepted w then
    let '(a, pl) := serve w in
    (Normal (Normal a), mkWorld pl (tail (outcomes w)) (now w) tr)
  else
    (Normal (Throw WebapiError),
     mkWorld (playlists w) (tail (outcomes w)) (now w) tr).

(** *** spotify-web-api-node, as far as the route uses it *)

Inductive Token : Type :=
  | AuthorizationCode    (* SPOTIFY_AUTHORIZATION_CODE *)
  | RefreshedToken.      (* body.access_token of a refresh *)

Record SpotifyWebApi : Type := { accessToken : Token }.

Definition setAccessToken (_ : SpotifyWebApi) (t : Token) : SpotifyWebApi :=
  {| accessToken := t |}.

Definition serve_refresh : Service Token :=
  fun w => (RefreshedToken, playlists w).

(** Appends the tracks at the end of the playlist, stamped with the
    current time. *)
Definition serve_add (playlistID : jsstring) (tracks : list jsstring)
  : Service unit := fun w =>
  (tt, <[playlistID :=
           entries w playlistID
           ++ map (fun u => {| track := {| uri := u |}; added_at := now w |})
                  tracks]> (playlists w)).

(** The first [limit] items of the playlist ([body.items]). *)
Definition serve_list (playlistID : jsstring) (limit : nat)
  : Service (list PlaylistTrack) := fun w =>
  (take limit (entries w playlistID), playlists w).

Definition uri_in (uris : list jsstring) (t : PlaylistTrack) : bool :=
  bool_decide (uri (track t) ∈ uris).

(** Removes every occurrence of the given track URIs from the playlist. *)
Definition serve_remove (playlistID : jsstring) (uris : list jsstring)
  : Service unit := fun w =>
  (tt, <[playlistID :=
           List.filter (fun t => negb (uri_in uris t)) (entries w playlistID)]>
         (playlists w)).

Definition refreshAccessToken (_ : SpotifyWebApi) : M (Completion Token) :=
  request ApiRefreshAccessToken serve_refresh.

Definition addTracksToPlaylist (_ : SpotifyWebApi)
    (playlistID : jsstring) (tracks : list jsstring) : M (Completion unit) :=
  request (ApiAddTracksToPlaylist playlistID tracks)
          (serve_add playlistID tracks).

Definition getPlaylistTracks (_ : SpotifyWebApi)
    (playlistID : jsstring) (limit : nat)
  : M (Completion (list PlaylistTrack)) :=
  request (ApiGetPlaylistTracks playlistID limit)
          (serve_list playlistID limit).

Definition removeTracksFromPlaylist (_ : SpotifyWebApi)
    (playlistID : jsstring) (uris : list jsstring) : M (Completion unit) :=
  request (ApiRemoveTracksFromPlaylist playlistID uris)
          (serve_remove playlistID uris).

(** *** The HTTP response object

    [res.status(n)] sets the status code; the first [res.end()] sends the
    response with the code set at that moment, a later one sends nothing
    more. *)

Record Res : Type := { statusCode : Z; sent : option Z }.

Definition fresh_res : Res := {| statusCode := 200; sent := None |}.

Definition status (n : Z) (res : Res) : Res :=
  {| statusCode := n; sent := sent res |}.

Definition end_ (res : Res) : Res :=
  {| statusCode := statusCode res;
     sent := match sent res with
             | None => Some (statusCode res)
             | Some n => Some n
             end |}.

(** ** Track reference extractor *)

(** What [spotifyUri.parse] returns: the [type] property and the result
    of the [toURI()] method. *)
Record ParsedUri : Type := { type : jsstring; toURI : jsstring }.

Section Extractor.

(** [spotifyUri.parse] of the spotify-uri package. *)
Variable parse : jsstring -> Completion ParsedUri.

(** [textTokens[1].slice(0, -1)] when the pattern matches, otherwise
    the initial [undefined]. *)
Definition candidate (decoded : jsstring) : JsVal :=
  match URL_REGEX decoded with
  | Some group1 => str (slice_0_m1 group1)
  | None => undefined
  end.

Definition getSpotifyURI (text : jsstring) : M JsVal :=
  decoded ← lift (decodeURIComponent text);
  let spotifyURL := candidate decoded in
  if truthy spotifyURL then
    match spotifyURL with
    | str url =>
        parsedSpotifyURL ← lift (parse url);
        if bool_decide (type parsedSpotifyURL = js "track") then
          let spotifyURL := toURI parsedSpotifyURL in
          _ ← console_log (MsgText spotifyURL);
          mret (str spotifyURL)
        else mret spotifyURL
    | undefined => mret spotifyURL
    end
  else mret spotifyURL.

End Extractor.

(** [getSpotifyAuthorizeURL]: builds the authorize URL and prints it. *)
Definition getSpotifyAuthorizeURL : M unit := console_log MsgAuthorizeURL.

(** [tokens.text] handed to [getSpotifyURI]: [decodeURIComponent] turns
    a missing property into the text "undefined". *)
Definition text_of (tokens : Tokens) : jsstring :=
  match get_prop tokens (js "text") with
  | str s => s
  | undefined => js "undefined"
  end.

(** ** Playlist pruner (src/unnamed/part_000) *)

(** [1000 * 3600 * 24]. *)
Definition ms_per_day : positive := 86400000.

Definition diffInTime (TODAY : Z) (t : PlaylistTrack) : Z :=
  (TODAY - added_at t)%Z.

(** [diffInTime / (1000 * 3600 * 24)], the exact quotient: both operands
    are integers and the result is only compared with a whole number of
    days, a comparison that rounding to a double does not change. *)
Definition diffInDays (TODAY : Z) (t : PlaylistTrack) : Q :=
  (diffInTime TODAY t # ms_per_day)%Q.

(** The predicate of [items.filter]: [diffInDays >= ageToPruneInDays]. *)
Definition is_old (TODAY ageToPruneInDays : Z) (t : PlaylistTrack) : bool :=
  Qle_bool (inject_Z ageToPruneInDays) (diffInDays TODAY t).

Definition tracksToRemove (TODAY ageToPruneInDays : Z)
    (items : list PlaylistTrack) : list PlaylistTrack :=
  List.filter (is_old TODAY ageToPruneInDays) items.

Definition tracksToRemoveURIs (TODAY ageToPruneInDays : Z)
    (items : list PlaylistTrack) : list jsstring :=
  map (fun t => uri (track t)) (tracksToRemove TODAY ageToPruneInDays items).

Definition pruneOldTracksFromPlaylist (spotifyClient : SpotifyWebApi)
    (playlistID : jsstring) (ageToPruneInDays : Z) : M unit :=
  TODAY ← get_now;
  listing ← getPlaylistTracks spotifyClient playlistID 50;
  items ← await listing;
  let uris := tracksToRemoveURIs TODAY ageToPruneInDays items in
  removal ← removeTracksFromPlaylist spotifyClient playlistID uris;
  _ ← await removal;
  console_log (MsgPruned (length uris) playlistID).

(** ** src/unnamed/part_000: archive and monthly playlists *)

Module Rolling.

(** [payload.split] exists on strings only; an object handed in while
    [isLocalDevelopment] makes the call throw. *)
Definition parseSlackWebhookPayload
    (payload : Tokens) (isLocalDevelopment : bool) : Completion Tokens :=
  if isLocalDevelopment then
    match payload with
    | TString s => Normal (TObject (split_reduce s))
    | TObject _ => Throw TypeError
    end
  else Normal payload.

Section Route.

Variable parse : jsstring -> Completion ParsedUri.
Variables SPOTIFY_ARCHIVE_PLAYLIST_ID SPOTIFY_MONTHLY_PLAYLIST_ID : jsstring.

(** Lines 112-123: both requests are issued, then the barrier waits
    for the two promises whatever their outcome. *)
Definition addToPlaylists (spotifyApi : SpotifyWebApi)
    (spotifyURL : jsstring) : M (list (Completion unit)) :=
  addTrackToArchivePlaylistPromise ←
    addTracksToPlaylist spotifyApi SPOTIFY_ARCHIVE_PLAYLIST_ID [spotifyURL];
  addTrackToMonthlyPlaylistPromise ←
    addTracksToPlaylist spotifyApi SPOTIFY_MONTHLY_PLAYLIST_ID [spotifyURL];
  await (allSettled [addTrackToArchivePlaylistPromise;
                     addTrackToMonthlyPlaylistPromise]).

Definition addTrackToPlaylist (spotifyURL : jsstring) : M unit :=
  let spotifyApi := {| accessToken := AuthorizationCode |} in
  refreshing ← refreshAccessToken spotifyApi;
  refreshAccessTokenResponse ← await refreshing;
  let spotifyApi := setAccessToken spotifyApi refreshAccessTokenResponse in
  _ ← try_catch
        (_ ← addToPlaylists spotifyApi spotifyURL;
         _ ← pruneOldTracksFromPlaylist spotifyApi
               SPOTIFY_MONTHLY_PLAYLIST_ID 30;
         console_log (MsgAdded spotifyURL))
        (fun e => console_error (MsgFailedToAdd spotifyURL e));
  mret tt.

(** The route.  The result is the response object as the handler
    leaves it; a thrown exception leaves the handler without any
    call on [res]. *)
Definition handler (isLocalDevelopment : bool) (body : Tokens)
    (res : Res) : M Res :=
  tokens ← lift (parseSlackWebhookPayload body isLocalDevelopment);
  if negb (isValidSlackWebhookPayload tokens) then
    mret (end_ (status 400 res))
  else
    _ ← getSpotifyAuthorizeURL;
    spotifyURL ← getSpotifyURI parse (text_of tokens);
    match spotifyURL with
    | undefined => mret (end_ (status 400 res))
    | str url =>
        res ← try_catch
                (_ ← addTrackToPlaylist url;
                 _ ← console_log MsgJson;
                 mret res)
                (fun err => mret (end_ (status 500 res)));
        mret (end_ (status 200 res))
    end.

End Route.

End Rolling.

(** ** src/pages/api/dj.ts: one playlist, detached promise chain *)

Module Single.

Definition parseSlackWebhookPayload (payload : Tokens) : Completion Tokens :=
  match payload with
  | TString s => Normal (TObject (split_reduce s))
  | TObject _ => Throw TypeError
  end.

Section Route.

Variable parse : jsstring -> Completion ParsedUri.
Variable SPOTIFY_PLAYLIST_ID : jsstring.
(** [JSON.stringify] on the request body. *)
Variable JSON_stringify : Tokens -> jsstring.

(** The reactions chained on the refresh promise with [then], [then]
    and [catch]: they run when the promise has settled, and every
    rejection ends in the [catch] reaction. *)
Definition reactions (spotifyApi : SpotifyWebApi) (spotifyURL : jsstring)
    (refreshing : Completion Token) : M unit :=
  try_catch
    (data ← await refreshing;
     _ ← console_log MsgData;
     let spotifyApi := setAccessToken spotifyApi data in
     adding ← addTracksToPlaylist spotifyApi SPOTIFY_PLAYLIST_ID [spotifyURL];
     _ ← await adding;
     console_log MsgAddedTracks)
    (fun err => console_log (MsgSomethingWentWrong err)).

(** The refresh is requested and the chain is left running: the
    function returns its empty object at once.  The value of the
    model is the chain that is still to run. *)
Definition addTrackToPlaylist (spotifyURL : jsstring) : M (M unit) :=
  let spotifyApi := {| accessToken := AuthorizationCode |} in
  refreshing ← refreshAccessToken spotifyApi;
  mret (reactions spotifyApi spotifyURL refreshing).

(** The route: the response object and the chain left behind, if the
    updater was reached. *)
Definition handler (body : Tokens) (res : Res) : M (Res * option (M unit)) :=
  _ ← console_log MsgBody;
  tokens ← lift (parseSlackWebhookPayload (TString (JSON_stringify body)));
  if negb (isValidSlackWebhookPayload tokens) then
    mret (end_ (status 400 res), None)
  else
    _ ← getSpotifyAuthorizeURL;
    spotifyURL ← getSpotifyURI parse (text_of tokens);
    match spotifyURL with
    | undefined => mret (end_ (status 400 res), None)
    | str url =>
        '(res, chain) ← try_catch
                (chain ← addTrackToPlaylist url;
                 _ ← console_log MsgJson;
                 mret (res, Some chain))
                (fun err => mret (end_ (status 500 res), None));
        mret (end_ (status 200 res), chain)
    end.

(** A whole invocation: the handler, then whatever chain it left. *)
Definition invocation (body : Tokens) (res : Res) : M Res :=
  '(res, chain) ← handler body res;
  _ ← default (mret tt) chain;
  mret res.

End Route.

End Single.

(** ** A reference parser

    [spotifyUri.parse] belongs to the spotify-uri package; the results
    below hold for every parser.  Closed examples need one, and this is
    the package on plain links [http(s)://host/type/id], with an optional
    query or fragment: the kind is the first path segment, the identifier
    the second, and anything else is a [TypeError]. *)

Module SpotifyUri.

Definition question : N := 63.  (* "?" *)
Definition hash : N := 35.      (* "#" *)
Definition slash : N := 47.     (* "/" *)
Definition colon : N := 58.     (* ":" *)

Definition after_scheme (uri : jsstring) : option jsstring :=
  if starts_with (js "https://") uri then Some (drop 8 uri)
  else if starts_with (js "http://") uri then Some (drop 7 uri)
  else None.

Definition in_authority (c : N) : bool :=
  negb ((c =? slash) || (c =? question) || (c =? hash)).

Definition in_path (c : N) : bool :=
  negb ((c =? question) || (c =? hash)).

Definition pathname (rest : jsstring) : jsstring :=
  match take_while in_path (drop (length (take_while in_authority rest)) rest) with
  | [] => [slash]
  | p => p
  end.

Definition kinds : list jsstring :=
  [js "playlist"; js "artist"; js "album"; js "track"; js "episode";
   js "show"].

Definition parse (uri : jsstring) : Completion ParsedUri :=
  match after_scheme uri with
  | None => Throw TypeError
  | Some rest =>
      match take_while in_authority rest with
      | [] => Throw TypeError
      | _ :: _ =>
          match split slash (pathname rest) with
          | _ :: kind :: id :: _ =>
              if bool_decide (kind ∈ kinds) then
                Normal {| type := kind;
                          toURI := js "spotify:" ++ kind ++ [colon] ++ id |}
              else Throw TypeError
          | _ => Throw TypeError
          end
      end
  end.

End SpotifyUri.

(** ** Vocabulary of the statements *)

(** *** Pairs *)

(** The text before the first [sep] of [s] (all of [s] when there is
    none) and the text after it ([None] when there is none). *)
Fixpoint before_first (sep : N) (s : jsstring) : jsstring :=
  match s with
  | [] => []
  | c :: s' => if c =? sep then [] else c :: before_first sep s'
  end.

Fixpoint after_first (sep : N) (s : jsstring) : option jsstring :=
  match s with
  | [] => None
  | c :: s' => if c =? sep then Some s' else after_first sep s'
  end.

Definition key_of (cur : jsstring) : jsstring := before_first equals cur.


(** The value of a pair as the route computes it: the text between the
    first "=" and the next one, absent when the pair has no "=". *)
Definition value_of (cur : jsstring) : JsVal :=
  match after_first equals cur with
  | None => undefined
  | Some rest => str (before_first equals rest)
  end.

(** *** Texts *)

Definition lt : N := 60.  (* "<" *)
Definition gt : N := 62.  (* ">" *)

(** No URL starts at any of the first [n] positions of [s]. *)
Definition no_url_before (n : nat) (s : jsstring) : bool :=
  forallb (fun i => negb (url_here (drop i s))) (seq 0 n).

(** The text ends here or goes on with a space. *)
Definition ends_or_space (s : jsstring) : bool :=
  match s with
  | [] => true
  | c :: _ => c =? space
  end.

(** *** Ages *)


(** *** Worlds *)

(** The world after further lines of the record. *)
Definition recorded (w : World) (events : list Event) : World :=
  mkWorld (playlists w) (outcomes w) (now w) (trace w ++ events).

(** Whether the service accepts the [n]-th request from now on. *)
Definition outcome (n : nat) (w : World) : bool := nth n (outcomes w) true.

(** How the promise of a request settles. *)
Definition settled_by (accepted : bool) : Completion unit :=
  if accepted then Normal tt else Throw WebapiError.

(** The world once a request has been answered. *)
Definition answered {A} (e : Event) (serve : Service A) (w : World)
  : World :=
  mkWorld (if accepted w then (serve w).2 else playlists w)
          (tail (outcomes w)) (now w) (trace w ++ [e]).

(** The entry the service creates for a track added now. *)
Definition added_now (w : World) (spotifyURL : jsstring) : PlaylistTrack :=
  {| track := {| uri := spotifyURL |}; added_at := now w |}.

(** The world after the route has printed the authorize URL and the
    extractor the reference. *)
Definition extracted (w : World) (spotifyURL : jsstring) : World :=
  recorded w [ConsoleLog MsgAuthorizeURL; ConsoleLog (MsgText spotifyURL)].

(** ** Concrete requests and worlds *)

(** The payload of the documentation, cut down to the required keys. *)
Definition documented_payload : jsstring :=
  js "token=T&channel_id=C&text=%3Chttps%3A%2F%2Fopen.spotify.com%2Ftrack%2F6J1Qcreg3a9hlJuvJCvjl5%3Fsi%3D2vEISP1TS0iilwluZTeDSQ%3E".

Definition documented_track : jsstring :=
  js "spotify:track:6J1Qcreg3a9hlJuvJCvjl5".

(** The documented payload with an album link in place of the track. *)
Definition album_payload : jsstring :=
  js "token=T&channel_id=C&text=%3Chttps%3A%2F%2Fopen.spotify.com%2Falbum%2FXYZ%3E".

(** [JSON.stringify] on a body that is a string free of quotes,
    backslashes and control characters: the string between double
    quotes.  (Other bodies are not needed below.) *)
Definition json_quote (body : Tokens) : jsstring :=
  match body with
  | TString s => [34] ++ s ++ [34]
  | TObject _ => js "{}"
  end.

(** A string body whose quoted form still carries the three required
    pairs between two "&". *)
Definition padded_payload : jsstring :=
  js "x&token=T&channel_id=C&text=%3Chttps%3A%2F%2Fopen.spotify.com%2Ftrack%2F6J1Qcreg3a9hlJuvJCvjl5%3Fsi%3D2vEISP1TS0iilwluZTeDSQ%3E&y".

Definition a_client : SpotifyWebApi := {| accessToken := RefreshedToken |}.

(** A world at rest: no playlist yet, every request accepted, nothing
    recorded. *)
Definition idle : World := mkWorld ∅ [] 0 [].

(** Worlds in which the service accepts the refresh and the first add
    and rejects the second add; rejects the first add only; rejects the
    refresh. *)
Definition second_add_down : World := mkWorld ∅ [true; true; false] 0 [].
Definition first_add_down : World := mkWorld ∅ [true; false] 0 [].
Definition refresh_down : World := mkWorld ∅ [false] 0 [].

(** A monthly playlist with one track added on day 70 and one added on
    day 71, seen on day 100. *)
Definition mixed : World :=
  mkWorld
    {[ js "monthly" :=
         [ {| track := {| uri := js "spotify:track:old" |};
              added_at := 6048000000 |};
           {| track := {| uri := js "spotify:track:new" |};
              added_at := 6134400000 |} ] ]}
    [] 8640000000 [].

(** A monthly playlist of 51 tracks, all added when the clock stood at 0,
    seen 30 days later. *)
Definition crowded : World :=
  mkWorld
    {[ js "monthly" :=
         map (fun i => {| track := {| uri := [N.of_nat i] |}; added_at := 0 |})
             (seq 0 51) ]}
    [] 2592000000 [].

(** ** Payloads written out *)

(** A text that holds neither "&" nor "=". *)
Definition plain (s : jsstring) : bool :=
  forallb (fun c => negb ((c =? amp) || (c =? equals))) s.

(** The pair [key=value] and the payload of a list of pairs, joined by
    "&". *)
Definition pair_text (kv : jsstring * jsstring) : jsstring :=
  kv.1 ++ equals :: kv.2.

Fixpoint join_pairs (pairs : list (jsstring * jsstring)) : jsstring :=
  match pairs with
  | [] => []
  | kv :: rest =>
      match rest with
      | [] => pair_text kv
      | _ :: _ => pair_text kv ++ amp :: join_pairs rest
      end
  end.

(** [pieces] joined by [sep]. *)
Fixpoint join (sep : N) (pieces : list jsstring) : jsstring :=
  match pieces with
  | [] => []
  | piece :: rest =>
      match rest with
      | [] => piece
      | _ :: _ => piece ++ sep :: join sep rest
      end
  end.

(** [pieces] are the pairs of [payload], in order: texts without "&"
    that give the payload when they are joined by "&".  The empty
    payload has one pair, the empty text. *)
Definition pairs_of (payload : jsstring) (pieces : list jsstring) : Prop :=
  pieces <> [] /\
  Forall (fun piece => amp ∉ piece) pieces /\
  join amp pieces = payload.

(** ** Escapes *)

(** What follows a "%" is not two hexadecimal digits. *)
Definition bad_escape (rest : jsstring) : bool :=
  match rest with
  | h1 :: h2 :: _ =>
      match hex_digit h1, hex_digit h2 with
      | Some _, Some _ => false
      | _, _ => true
      end
  | _ => true
  end.

(** ** Records *)

(** The lines of the record that are requests to the service. *)
Definition is_request (e : Event) : bool :=
  match e with
  | ConsoleLog _ | ConsoleError _ => false
  | _ => true
  end.

(** What a run has added to the record. *)
Definition new_events (before after : World) : list Event :=
  drop (length (trace before)) (trace after).

(** The entries an accepted add request for [target] puts into the
    playlist [p]. *)
Definition appended (accepted : bool) (target p : jsstring)
    (entry : PlaylistTrack) : list PlaylistTrack :=
  if accepted && bool_decide (p = target) then [entry] else [].

(** A monthly playlist whose only entry is the documented track, added
    40 days before the clock. *)
Definition old_twin : World :=
  mkWorld
    {[ js "monthly" :=
         [ {| track := {| uri := documented_track |}; added_at := 0 |} ] ]}
    [] 3456000000 [].


(** The pruner's listing rejected after an accepted refresh and two
    accepted adds; both adds rejected and the pruner through. *)
Definition listing_down : World := mkWorld ∅ [true; true; true; false] 0 [].
Definition both_adds_down : World := mkWorld ∅ [true; false; false] 0 [].

(** ** Proof steps *)

(** Unfolds the operations of the monad of the route. *)
Ltac run_route :=
  unfold mbind, M_bind, mret, M_ret, await, lift, throw, try_catch,
    console_log, console_error, record, get_now;
  cbv beta iota.

(** Goes through a short list of events looking for a removal request. *)
Ltac no_other_removal H :=
  repeat (apply elem_of_cons in H as [H|H]);
  try (apply elem_of_nil in H; contradiction);
  try discriminate;
  try (injection H as _ ->; reflexivity).

(** * Properties *)

(** ** Splitting *)

Lemma split_first sep s :
  split sep s =
  before_first sep s ::
    match after_first sep s with
    | None => []
    | Some rest => split sep rest
    end.
Proof.
  induction s as [|c s IH]; simpl; [reflexivity|].
  destruct (c =? sep); [reflexivity|].
  rewrite IH. reflexivity.
Qed.

Lemma split_whole sep (s : jsstring) : sep ∉ s -> split sep s = [s].
Proof.
  induction s as [|c s IH]; intros Hs; simpl; [reflexivity|].
  apply not_elem_of_cons in Hs as [Hc Hs].
  destruct (N.eqb_spec c sep) as [->|_]; [congruence|].
  rewrite IH by exact Hs. reflexivity.
Qed.

Lemma split_at sep (a b : jsstring) :
  sep ∉ a -> split sep (a ++ sep :: b) = a :: split sep b.
Proof.
  induction a as [|c a IH]; intros Ha; simpl.
  - rewrite N.eqb_refl. reflexivity.
  - apply not_elem_of_cons in Ha as [Hc Ha].
    destruct (N.eqb_spec c sep) as [->|_]; [congruence|].
    rewrite IH by exact Ha. reflexivity.
Qed.

Lemma split_pieces_free sep (s : jsstring) :
  Forall (fun piece => sep ∉ piece) (split sep s).
Proof.
  induction s as [|c s IH]; simpl.
  - constructor; [apply not_elem_of_nil|constructor].
  - destruct (N.eqb_spec c sep) as [->|Hne].
    + constructor; [apply not_elem_of_nil|exact IH].
    + destruct (split sep s) as [|piece pieces].
      * constructor; [|constructor].
        apply not_elem_of_cons. split; [congruence|apply not_elem_of_nil].
      * inversion IH as [|? ? Hpiece Hrest]; subst.
        constructor; [|exact Hrest].
        apply not_elem_of_cons. split; [congruence|exact Hpiece].
Qed.

Lemma join_split sep (s : jsstring) : join sep (split sep s) = s.
Proof.
  induction s as [|c s IH]; simpl; [reflexivity|].
  destruct (N.eqb_spec c sep) as [->|Hne].
  - destruct (split sep s) as [|piece pieces] eqn:Hs; [|simpl in *; congruence].
    destruct s; simpl in Hs; [discriminate|].
    destruct (_ =? _); [discriminate|]. destruct (split sep s); discriminate.
  - destruct (split sep s) as [|piece pieces] eqn:Hs.
    + destruct s; simpl in Hs; [discriminate|].
      destruct (_ =? _); [discriminate|]. destruct (split sep s); discriminate.
    + destruct pieces; simpl in *; congruence.
Qed.

(** The pairs of a payload are the pieces [split] gives, and no others. *)
Lemma pairs_of_split (payload : jsstring) : pairs_of payload (split amp payload).
Proof.
  split; [|split].
  - destruct payload as [|c s]; simpl; [discriminate|].
    destruct (c =? amp); [discriminate|]. destruct (split amp s); discriminate.
  - apply split_pieces_free.
  - apply join_split.
Qed.

Lemma split_pairs_of (payload : jsstring) (pieces : list jsstring) :
  pairs_of payload pieces -> split amp payload = pieces.
Proof.
  intros (Hne & Hfree & <-).
  induction pieces as [|piece rest IH]; [congruence|].
  inversion Hfree as [|? ? Hpiece Hrest]; subst.
  destruct rest as [|piece' rest].
  - simpl. apply split_whole, Hpiece.
  - change (join amp (piece :: piece' :: rest))
      with (piece ++ amp :: join amp (piece' :: rest)).
    rewrite split_at by exact Hpiece.
    rewrite IH by (congruence || exact Hrest). reflexivity.
Qed.

Lemma key_value_first cur : key_value cur = (key_of cur, value_of cur).
Proof.
  unfold key_value, key_of, value_of. rewrite split_first.
  destruct (after_first equals cur) as [rest|]; [|reflexivity].
  rewrite (split_first equals rest).
  destruct (after_first equals rest); reflexivity.
Qed.

Lemma reducer_insert prev cur :
  reducer prev cur = <[key_of cur := value_of cur]> prev.
Proof. unfold reducer. rewrite key_value_first. reflexivity. Qed.

(** Folding the reducer: a key keeps the value of its last pair. *)
Lemma foldl_reducer_other (pairs : list jsstring) prev k :
  Forall (fun cur => key_of cur ≠ k) pairs ->
  foldl reducer prev pairs !! k = prev !! k.
Proof.
  revert prev. induction pairs as [|cur pairs IH]; intros prev Hk; simpl.
  - reflexivity.
  - inversion Hk as [|? ? Hcur Hrest]; subst.
    rewrite IH by assumption.
    rewrite reducer_insert. apply lookup_insert_ne. assumption.
Qed.

Lemma foldl_reducer_last (pre post : list jsstring) cur prev :
  Forall (fun c => key_of c ≠ key_of cur) post ->
  foldl reducer prev (pre ++ cur :: post) !! key_of cur = Some (value_of cur).
Proof.
  intros Hpost. rewrite foldl_app. simpl.
  rewrite foldl_reducer_other by assumption.
  rewrite reducer_insert. apply lookup_insert_eq.
Qed.

Lemma foldl_reducer_dom (pairs : list jsstring) prev :
  dom (foldl reducer prev pairs) = dom prev ∪ list_to_set (key_of <$> pairs).
Proof.
  revert prev. induction pairs as [|cur pairs IH]; intros prev; simpl.
  - apply eq_sym, (right_id_L ∅ (∪)).
  - rewrite IH, reducer_insert, dom_insert_L.
    rewrite (assoc_L (∪)). f_equal. apply (comm_L (∪)).
Qed.

Lemma foldl_reducer_origin (pairs : list jsstring) prev k v :
  foldl reducer prev pairs !! k = Some v ->
  prev !! k = Some v \/
  exists cur, cur ∈ pairs /\ key_of cur = k /\ value_of cur = v.
Proof.
  revert prev. induction pairs as [|cur pairs IH]; intros prev H; simpl in H.
  - left. assumption.
  - apply IH in H as [H|(c & Hc & Hk & Hv)].
    + rewrite reducer_insert in H.
      destruct (decide (key_of cur = k)) as [Heq|Hne].
      * subst k. rewrite lookup_insert_eq in H. injection H as Hv.
        right. exists cur. split; [left|]; auto.
      * rewrite lookup_insert_ne in H by assumption. left. assumption.
    + right. exists c. split; [right|]; auto.
Qed.

Lemma list_to_set_remove_dups (l : list jsstring) :
  list_to_set (C := gset jsstring) (remove_dups l) = list_to_set l.
Proof.
  apply set_eq. intros x.
  rewrite !elem_of_list_to_set. apply elem_of_remove_dups.
Qed.

Lemma split_reduce_size (payload : jsstring) :
  size (split_reduce payload)
  = length (remove_dups (key_of <$> split amp payload)).
Proof.
  rewrite <- size_dom. unfold split_reduce.
  rewrite foldl_reducer_dom, dom_empty_L, (left_id_L ∅ (∪)).
  rewrite <- list_to_set_remove_dups.
  apply size_list_to_set, NoDup_remove_dups.
Qed.

(** ** Payload normalizer *)

(** C10.  Every payload string is a list of pairs joined by "&", and the
    normalizer turns it into an object.  When several pairs carry the
    same key, the object holds the value of the last of them: a pair
    after which no pair has the same key gives its key its value.  The
    keys of the object are the keys of the pairs, one entry for each
    distinct key.  The key of a pair is the text before its first "=",
    its value the text the route keeps for it.  This is so in dj.ts and,
    in local development, in the later revision. *)
Theorem last_pair_wins (payload : jsstring) :
  exists m : gmap jsstring JsVal,
    Single.parseSlackWebhookPayload (TString payload) = Normal (TObject m) /\
    Rolling.parseSlackWebhookPayload (TString payload) true = Normal (TObject m) /\
    (exists pieces, pairs_of payload pieces) /\
    forall pieces,
      pairs_of payload pieces ->
      (forall pre cur post,
         pieces = pre ++ cur :: post ->
         Forall (fun later => key_of later ≠ key_of cur) post ->
         m !! key_of cur = Some (value_of cur)) /\
      (forall key,
         is_Some (m !! key) <-> exists cur, cur ∈ pieces /\ key_of cur = key) /\
      size m = length (remove_dups (key_of <$> pieces)).
Proof.
  exists (split_reduce payload).
  split; [reflexivity|]. split; [reflexivity|].
  split; [exists (split amp payload); apply pairs_of_split|].
  intros pieces Hpieces. apply split_pairs_of in Hpieces.
  split; [|split].
  - intros pre cur post Hsplit Hpost.
    unfold split_reduce. rewrite Hpieces, Hsplit.
    apply foldl_reducer_last, Hpost.
  - intros key. rewrite <- elem_of_dom. unfold split_reduce.
    rewrite foldl_reducer_dom, dom_empty_L, (left_id_L ∅ (∪)), Hpieces.
    rewrite elem_of_list_to_set, list_elem_of_fmap.
    split; intros (cur & H1 & H2); exists cur; split; congruence.
  - rewrite split_reduce_size, Hpieces. reflexivity.
Qed.

(** The payload a=1&b=x&a=2: the object has the two keys a and b, and a
    holds the value of its last pair. *)
Lemma last_pair_wins_witness :
  exists m : gmap jsstring JsVal,
    Single.parseSlackWebhookPayload (TString (js "a=1&b=x&a=2"))
    = Normal (TObject m) /\
    m !! js "a" = Some (str (js "2")) /\
    m !! js "b" = Some (str (js "x")) /\
    size m = 2%nat.
Proof.
  destruct (last_pair_wins (js "a=1&b=x&a=2")) as (m & Hsingle & _ & _ & Hall).
  destruct (Hall [js "a=1"; js "b=x"; js "a=2"]) as (Hlast & _ & Hsize).
  { split; [discriminate|]. split; [|reflexivity].
    repeat constructor; apply (bool_decide_unpack _); vm_compute; exact I. }
  exists m. split; [exact Hsingle|]. split; [|split].
  - apply (Hlast [js "a=1"; js "b=x"] (js "a=2") []); [reflexivity|constructor].
  - apply (Hlast [js "a=1"] (js "b=x") [js "a=2"]); [reflexivity|].
    repeat constructor. vm_compute. discriminate.
  - rewrite Hsize. vm_compute. reflexivity.
Defined.

Lemma before_first_whole sep s :
  after_first sep s = None -> before_first sep s = s.
Proof.
  induction s as [|c s IH]; simpl; [reflexivity|].
  destruct (c =? sep); [discriminate|].
  intros H. rewrite IH by assumption. reflexivity.
Qed.



(** ** The URL pattern *)

Lemma starts_with_length p s :
  starts_with p s = true -> (length p <= length s)%nat.
Proof.
  revert s. induction p as [|a p IH]; intros [|b s]; simpl; intros H;
    try discriminate; try lia.
  apply andb_true_iff in H as [_ H]. apply IH in H. lia.
Qed.

Lemma starts_with_take_while f p s :
  forallb f p = true -> starts_with p s = true ->
  starts_with p (take_while f s) = true.
Proof.
  revert s. induction p as [|a p IH]; intros [|b s]; simpl; auto.
  intros Hf Hs. apply andb_true_iff in Hf as [Ha Hp].
  apply andb_true_iff in Hs as [Hab Hs].
  apply N.eqb_eq in Hab. subst b. rewrite Ha. simpl.
  rewrite N.eqb_refl. simpl. apply IH; assumption.
Qed.

Lemma url_here_length s : url_here s = true -> (7 <= length s)%nat.
Proof.
  unfold url_here. intros H. apply orb_true_iff in H as [H|H];
    apply starts_with_length in H; simpl in H; lia.
Qed.

Lemma url_here_run s : url_here s = true -> url_here (take_while non_space s) = true.
Proof.
  unfold url_here. intros H. apply orb_true_iff in H as [H|H];
    apply orb_true_iff; [left|right];
    (apply starts_with_take_while; [reflexivity|exact H]).
Qed.

Lemma take_while_split f s :
  exists rest, s = take_while f s ++ rest /\
               match rest with [] => True | c :: _ => f c = false end.
Proof.
  induction s as [|c s (rest & Hs & Hrest)]; simpl.
  - exists []. split; [reflexivity|exact I].
  - destruct (f c) eqn:Hc.
    + exists rest. split; [simpl; f_equal; exact Hs|exact Hrest].
    + exists (c :: s). split; [reflexivity|exact Hc].
Qed.

Lemma take_while_all f s : Forall (fun c => f c = true) (take_while f s).
Proof.
  induction s as [|c s IH]; simpl; [constructor|].
  destruct (f c) eqn:Hc; constructor; assumption.
Qed.

Lemma take_while_stop f s rest :
  Forall (fun c => f c = true) s ->
  match rest with [] => True | c :: _ => f c = false end ->
  take_while f (s ++ rest) = s.
Proof.
  intros Hs Hrest. induction Hs as [|c s Hc _ IH]; simpl.
  - destruct rest as [|c rest]; [reflexivity|]. simpl. rewrite Hrest. reflexivity.
  - rewrite Hc, IH. reflexivity.
Qed.

Lemma forallb_seq_shift (P : nat -> bool) a n :
  forallb P (seq (S a) n) = forallb (fun i => P (S i)) (seq a n).
Proof.
  revert a. induction n as [|n IH]; intros a; simpl; [reflexivity|].
  rewrite IH. reflexivity.
Qed.

(** The match of the pattern: it starts where the first URL starts and
    is the run of non-space units from there. *)
Lemma URL_REGEX_first (n : nat) (s : jsstring) :
  no_url_before n s = true ->
  url_here (drop n s) = true ->
  URL_REGEX s = Some (take_while non_space (drop n s)).
Proof.
  revert s. induction n as [|n IH]; intros s Hbefore Hhere.
  - rewrite drop_0 in Hhere |- *.
    destruct s as [|c s]; [discriminate|].
    simpl URL_REGEX. rewrite Hhere. reflexivity.
  - destruct s as [|c s]; [discriminate|].
    unfold no_url_before in Hbefore. simpl seq in Hbefore.
    simpl forallb in Hbefore. apply andb_true_iff in Hbefore as [H0 Hn].
    change (drop 0 (c :: s)) with (c :: s) in H0. apply negb_true_iff in H0.
    simpl URL_REGEX. rewrite H0. simpl drop. apply IH; [|exact Hhere].
    unfold no_url_before. rewrite forallb_seq_shift in Hn. exact Hn.
Qed.

Lemma URL_REGEX_match (s group1 : jsstring) :
  URL_REGEX s = Some group1 ->
  exists n,
    no_url_before n s = true /\
    url_here (drop n s) = true /\
    group1 = take_while non_space (drop n s).
Proof.
  induction s as [|c s IH]; [discriminate|].
  simpl URL_REGEX. destruct (url_here (c :: s)) eqn:Hhere.
  - intros H. injection H as <-. exists 0%nat.
    split; [reflexivity|]. split; [exact Hhere|reflexivity].
  - intros H. apply IH in H as (n & Hbefore & Hn & Hg).
    exists (S n). split; [|split; assumption].
    unfold no_url_before. simpl seq. simpl forallb.
    change (drop 0 (c :: s)) with (c :: s). rewrite Hhere. simpl.
    rewrite forallb_seq_shift. exact Hbefore.
Qed.

Lemma URL_REGEX_long (s group1 : jsstring) :
  URL_REGEX s = Some group1 ->
  url_here group1 = true /\ (7 <= length group1)%nat.
Proof.
  intros H. apply URL_REGEX_match in H as (n & _ & Hn & ->).
  apply url_here_run in Hn. split; [exact Hn|].
  apply url_here_length. exact Hn.
Qed.

Lemma removelast_nonempty (s : jsstring) :
  (2 <= length s)%nat -> exists c rest, removelast s = c :: rest.
Proof.
  destruct s as [|a [|b s]]; simpl; try lia.
  intros _. eauto.
Qed.

(** ** Track reference extractor *)

Lemma getSpotifyURI_malformed parse text w :
  decodeURIComponent text = Throw URIError ->
  getSpotifyURI parse text w = (Throw URIError, w).
Proof. intros H. unfold getSpotifyURI. run_route. rewrite H. reflexivity. Qed.

Lemma getSpotifyURI_no_url parse text decoded w :
  decodeURIComponent text = Normal decoded ->
  URL_REGEX decoded = None ->
  getSpotifyURI parse text w = (Normal undefined, w).
Proof.
  intros Hd Hr. unfold getSpotifyURI, candidate. run_route.
  rewrite Hd, Hr. reflexivity.
Qed.

(** What the extractor does once a candidate is there. *)
Lemma getSpotifyURI_candidate parse text decoded url w :
  decodeURIComponent text = Normal decoded ->
  candidate decoded = str url ->
  getSpotifyURI parse text w =
  match parse url with
  | Throw e => (Throw e, w)
  | Normal parsed =>
      if bool_decide (type parsed = js "track")
      then (Normal (str (toURI parsed)),
            recorded w [ConsoleLog (MsgText (toURI parsed))])
      else (Normal (str url), w)
  end.
Proof.
  intros Hd Hc. unfold getSpotifyURI. run_route. rewrite Hd, Hc.
  assert (Htruthy : truthy (str url) = true).
  { unfold candidate, slice_0_m1 in Hc.
    destruct (URL_REGEX decoded) as [g|] eqn:Hr;
      [|discriminate].
    injection Hc as <-. apply URL_REGEX_long in Hr as [_ Hlen].
    destruct (removelast_nonempty g) as (c & rest & ->); [lia|reflexivity]. }
  rewrite Htruthy.
  destruct (parse url) as [parsed|e]; [|reflexivity].
  destruct (bool_decide (type parsed = js "track")); reflexivity.
Qed.

(** C7.  Whenever the decoded text holds a URL, the match is the run of
    non-space units that starts where the first "http://" or "https://"
    starts; exactly one unit, the last of the run whatever it is, is cut
    off, and what is left is the string handed to the URI parser, whose
    answer decides the result. *)
Theorem last_unit_always_stripped parse text decoded group1 w :
  decodeURIComponent text = Normal decoded ->
  URL_REGEX decoded = Some group1 ->
  (exists n rest,
     decoded = take n decoded ++ group1 ++ rest /\
     no_url_before n decoded = true /\
     url_here group1 = true /\
     Forall (fun c => c <> space) group1 /\
     ends_or_space rest = true) /\
  (exists last, group1 = removelast group1 ++ [last]) /\
  candidate decoded = str (removelast group1) /\
  getSpotifyURI parse text w =
  match parse (removelast group1) with
  | Throw e => (Throw e, w)
  | Normal parsed =>
      if bool_decide (type parsed = js "track")
      then (Normal (str (toURI parsed)),
            recorded w [ConsoleLog (MsgText (toURI parsed))])
      else (Normal (str (removelast group1)), w)
  end.
Proof.
  intros Hd Hr.
  assert (Hc : candidate decoded = str (removelast group1)).
  { unfold candidate. rewrite Hr. reflexivity. }
  split; [|split; [|split]].
  - destruct (URL_REGEX_match _ _ Hr) as (n & Hbefore & Hhere & Hg).
    destruct (take_while_split non_space (drop n decoded)) as (rest & Hs & Hrest).
    exists n, rest. rewrite <- Hg in Hs.
    split; [|split; [|split; [|split]]].
    + rewrite <- Hs. symmetry. apply take_drop.
    + exact Hbefore.
    + apply (URL_REGEX_long _ _ Hr).
    + rewrite Hg. eapply Forall_impl; [apply take_while_all|].
      intros c Hc' ->. discriminate.
    + destruct rest as [|c rest]; [reflexivity|]. simpl.
      unfold non_space in Hrest. apply negb_false_iff in Hrest. exact Hrest.
  - apply URL_REGEX_long in Hr as [_ Hlen].
    destruct (exists_last (l := group1)) as (front & last & Hg).
    { intros ->. simpl in Hlen. lia. }
    exists last. rewrite Hg at 2. rewrite removelast_last. exact Hg.
  - exact Hc.
  - apply getSpotifyURI_candidate with (decoded := decoded); assumption.
Qed.

(** A link without closing bracket loses its last unit: the track
    ABC123 is looked up as ABC12. *)
Lemma last_unit_always_stripped_witness :
  decodeURIComponent (js "dj https://open.spotify.com/track/ABC123")
  = Normal (js "dj https://open.spotify.com/track/ABC123") /\
  URL_REGEX (js "dj https://open.spotify.com/track/ABC123")
  = Some (js "https://open.spotify.com/track/ABC123") /\
  candidate (js "dj https://open.spotify.com/track/ABC123")
  = str (js "https://open.spotify.com/track/ABC12") /\
  (getSpotifyURI SpotifyUri.parse
     (js "dj https://open.spotify.com/track/ABC123") idle).1
  = Normal (str (js "spotify:track:ABC12")).
Proof.
  assert (Hd : decodeURIComponent (js "dj https://open.spotify.com/track/ABC123")
               = Normal (js "dj https://open.spotify.com/track/ABC123"))
    by (vm_compute; reflexivity).
  assert (Hr : URL_REGEX (js "dj https://open.spotify.com/track/ABC123")
               = Some (js "https://open.spotify.com/track/ABC123"))
    by (vm_compute; reflexivity).
  destruct (last_unit_always_stripped SpotifyUri.parse _ _ _ idle Hd Hr)
    as (_ & _ & Hc & Hrun).
  split; [exact Hd|]. split; [exact Hr|]. split; [exact Hc|].
  rewrite Hrun. vm_compute. reflexivity.
Defined.

(** C1, on the code.  When the candidate parses as something that is not
    a track, the extractor hands the candidate itself back, a URL string,
    and not the absence marker. *)
Theorem non_track_candidate_returned parse text decoded url parsed w :
  decodeURIComponent text = Normal decoded ->
  candidate decoded = str url ->
  parse url = Normal parsed ->
  type parsed <> js "track" ->
  getSpotifyURI parse text w = (Normal (str url), w) /\
  (getSpotifyURI parse text w).1 <> Normal undefined.
Proof.
  intros Hd Hc Hp Hty.
  assert (H : getSpotifyURI parse text w = (Normal (str url), w)).
  { rewrite (getSpotifyURI_candidate parse text decoded url w Hd Hc), Hp.
    rewrite bool_decide_eq_false_2 by exact Hty. reflexivity. }
  split; [exact H|]. rewrite H. discriminate.
Qed.

Lemma non_track_candidate_returned_witness :
  getSpotifyURI SpotifyUri.parse (js "<https://open.spotify.com/album/XYZ>") idle
  = (Normal (str (js "https://open.spotify.com/album/XYZ")), idle).
Proof.
  refine (proj1 (non_track_candidate_returned SpotifyUri.parse
            (js "<https://open.spotify.com/album/XYZ>")
            (js "<https://open.spotify.com/album/XYZ>")
            (js "https://open.spotify.com/album/XYZ")
            {| type := js "album"; toURI := js "spotify:album:XYZ" |}
            idle _ _ _ _)).
  - vm_compute. reflexivity.
  - vm_compute. reflexivity.
  - vm_compute. reflexivity.
  - vm_compute. discriminate.
Defined.

(** C3, as the code has it.  When the URI parser throws on the
    candidate, the extractor throws the same exception to its caller and
    returns nothing; the world is left as it was. *)
Theorem parse_exception_propagates parse text decoded url e w :
  decodeURIComponent text = Normal decoded ->
  candidate decoded = str url ->
  parse url = Throw e ->
  getSpotifyURI parse text w = (Throw e, w).
Proof.
  intros Hd Hc Hp.
  rewrite (getSpotifyURI_candidate parse text decoded url w Hd Hc), Hp.
  reflexivity.
Qed.

Lemma parse_exception_propagates_witness :
  getSpotifyURI SpotifyUri.parse (js "<https://example.com/>") idle
  = (Throw TypeError, idle).
Proof.
  refine (parse_exception_propagates SpotifyUri.parse
            (js "<https://example.com/>") (js "<https://example.com/>")
            (js "https://example.com/") TypeError idle _ _ _);
    vm_compute; reflexivity.
Defined.

(** The absence marker comes back exactly when the decoded text holds
    no URL. *)
Lemma absence_marker_iff_no_url parse text decoded w :
  decodeURIComponent text = Normal decoded ->
  (getSpotifyURI parse text w).1 = Normal undefined <->
  URL_REGEX decoded = None.
Proof.
  intros Hd. split.
  - destruct (URL_REGEX decoded) as [group1|] eqn:Hr; [|reflexivity].
    rewrite (getSpotifyURI_candidate parse text decoded (slice_0_m1 group1) w Hd)
      by (unfold candidate; rewrite Hr; reflexivity).
    destruct (parse (slice_0_m1 group1)) as [parsed|e]; [|discriminate].
    destruct (bool_decide (type parsed = js "track")); discriminate.
  - intros Hr. rewrite (getSpotifyURI_no_url parse text decoded w Hd Hr).
    reflexivity.
Qed.

(** C3, as the specification words it, fails: the link
    https://example.com/ names no music-service resource, the parser
    throws on it, and the extractor throws too instead of returning the
    absence marker. *)
Lemma unparseable_link_throws :
  candidate (js "<https://example.com/>") = str (js "https://example.com/") /\
  SpotifyUri.parse (js "https://example.com/") = Throw TypeError /\
  (getSpotifyURI SpotifyUri.parse (js "<https://example.com/>") idle).1
  = Throw TypeError /\
  (getSpotifyURI SpotifyUri.parse (js "<https://example.com/>") idle).1
  <> Normal undefined.
Proof.
  split; [vm_compute; reflexivity|]. split; [vm_compute; reflexivity|].
  split; [vm_compute; reflexivity|]. vm_compute. discriminate.
Qed.

Lemma forallb_Forall_true (f : N -> bool) (s : jsstring) :
  forallb f s = true -> Forall (fun c => f c = true) s.
Proof.
  induction s as [|c s IH]; simpl; [constructor|].
  intros H. apply andb_true_iff in H as [Hc Hs]. constructor; auto.
Qed.

Lemma starts_with_app p s rest :
  starts_with p s = true -> starts_with p (s ++ rest) = true.
Proof.
  revert s. induction p as [|a p IH]; intros [|b s]; simpl; intros H;
    try discriminate; try reflexivity.
  apply andb_true_iff in H as [Hab H]. rewrite Hab. simpl. apply IH, H.
Qed.

Lemma url_here_app s rest : url_here s = true -> url_here (s ++ rest) = true.
Proof.
  unfold url_here. intros H. apply orb_true_iff in H as [H|H];
    apply orb_true_iff; [left|right]; apply starts_with_app, H.
Qed.

(** The candidate of a text whose first URL is wrapped in brackets, the
    closing one ending the run: the URL itself. *)
Lemma candidate_bracketed (pre url post : jsstring) :
  no_url_before (S (length pre)) (pre ++ lt :: url ++ gt :: post) = true ->
  url_here url = true ->
  forallb non_space url = true ->
  ends_or_space post = true ->
  candidate (pre ++ lt :: url ++ gt :: post) = str url.
Proof.
  intros Hbefore Hhere Hrun Hpost. unfold candidate.
  assert (Hdrop : drop (S (length pre)) (pre ++ lt :: url ++ gt :: post)
                  = (url ++ [gt]) ++ post).
  { replace (S (length pre)) with (length (pre ++ [lt]))
      by (rewrite length_app; simpl; lia).
    replace (pre ++ lt :: url ++ gt :: post)
      with ((pre ++ [lt]) ++ (url ++ [gt]) ++ post)
      by (rewrite <- !app_assoc; reflexivity).
    apply drop_app_length. }
  assert (Hthere : url_here ((url ++ [gt]) ++ post) = true).
  { rewrite <- app_assoc. apply url_here_app. exact Hhere. }
  rewrite (URL_REGEX_first (S (length pre)) _ Hbefore)
    by (rewrite Hdrop; exact Hthere).
  rewrite Hdrop.
  rewrite take_while_stop.
  - unfold slice_0_m1. rewrite removelast_last. reflexivity.
  - apply Forall_app. split; [apply forallb_Forall_true; exact Hrun|].
    constructor; [reflexivity|constructor].
  - destruct post as [|c post]; [exact I|]. simpl in Hpost.
    unfold non_space. rewrite Hpost. reflexivity.
Qed.

(** C6, as the code has it.  When the first URL of the decoded text is a
    track link wrapped in angle brackets, the closing bracket ending the
    run of non-space units, the extractor returns what the parser gives
    as the canonical URI of the track, and prints it. *)
Theorem bracketed_track_canonicalized parse text pre url post parsed w :
  decodeURIComponent text = Normal (pre ++ lt :: url ++ gt :: post) ->
  no_url_before (S (length pre)) (pre ++ lt :: url ++ gt :: post) = true ->
  url_here url = true ->
  forallb non_space url = true ->
  ends_or_space post = true ->
  parse url = Normal parsed ->
  type parsed = js "track" ->
  getSpotifyURI parse text w =
  (Normal (str (toURI parsed)),
   recorded w [ConsoleLog (MsgText (toURI parsed))]).
Proof.
  intros Hd Hbefore Hhere Hrun Hpost Hp Hty.
  rewrite (getSpotifyURI_candidate parse text _ url w Hd)
    by (apply candidate_bracketed; assumption).
  rewrite Hp, bool_decide_eq_true_2 by exact Hty. reflexivity.
Qed.

(** The text of the documented payload, with the reference parser. *)
Lemma bracketed_track_canonicalized_witness :
  (getSpotifyURI SpotifyUri.parse
     (js "%3Chttps%3A%2F%2Fopen.spotify.com%2Ftrack%2F6J1Qcreg3a9hlJuvJCvjl5%3Fsi%3D2vEISP1TS0iilwluZTeDSQ%3E")
     idle).1
  = Normal (str (js "spotify:track:6J1Qcreg3a9hlJuvJCvjl5")).
Proof.
  rewrite (bracketed_track_canonicalized SpotifyUri.parse
             (js "%3Chttps%3A%2F%2Fopen.spotify.com%2Ftrack%2F6J1Qcreg3a9hlJuvJCvjl5%3Fsi%3D2vEISP1TS0iilwluZTeDSQ%3E")
             []
             (js "https://open.spotify.com/track/6J1Qcreg3a9hlJuvJCvjl5?si=2vEISP1TS0iilwluZTeDSQ")
             []
             {| type := js "track";
                toURI := js "spotify:track:6J1Qcreg3a9hlJuvJCvjl5" |}
             idle).
  - reflexivity.
  - vm_compute. reflexivity.
  - vm_compute. reflexivity.
  - vm_compute. reflexivity.
  - vm_compute. reflexivity.
  - vm_compute. reflexivity.
  - vm_compute. reflexivity.
  - vm_compute. reflexivity.
Defined.

(** The same text with any parser that knows the link as this track. *)
Lemma documented_payload_extracted parse w :
  parse (js "https://open.spotify.com/track/6J1Qcreg3a9hlJuvJCvjl5?si=2vEISP1TS0iilwluZTeDSQ")
  = Normal {| type := js "track";
              toURI := js "spotify:track:6J1Qcreg3a9hlJuvJCvjl5" |} ->
  (getSpotifyURI parse
     (js "%3Chttps%3A%2F%2Fopen.spotify.com%2Ftrack%2F6J1Qcreg3a9hlJuvJCvjl5%3Fsi%3D2vEISP1TS0iilwluZTeDSQ%3E")
     w).1
  = Normal (str (js "spotify:track:6J1Qcreg3a9hlJuvJCvjl5")).
Proof.
  intros Hp.
  rewrite (getSpotifyURI_candidate parse _
             (js "<https://open.spotify.com/track/6J1Qcreg3a9hlJuvJCvjl5?si=2vEISP1TS0iilwluZTeDSQ>")
             (js "https://open.spotify.com/track/6J1Qcreg3a9hlJuvJCvjl5?si=2vEISP1TS0iilwluZTeDSQ")
             w).
  - rewrite Hp. reflexivity.
  - vm_compute. reflexivity.
  - vm_compute. reflexivity.
Qed.

(** C6, as the specification words it, fails: a text can contain a track
    link in angle brackets after another link, and only the first link
    counts; here the album link comes back, not the URI of the track.
    And when the closing bracket is not the end of the run, as with a
    full stop after it, the unit cut off is the full stop: the parser is
    asked about a link that ends in the bracket. *)
Lemma later_bracketed_track_ignored :
  decodeURIComponent
    (js "<https://open.spotify.com/album/A> <https://open.spotify.com/track/ABC123?si=xyz>")
  = Normal (js "<https://open.spotify.com/album/A> "
            ++ lt :: js "https://open.spotify.com/track/ABC123?si=xyz"
            ++ [gt]) /\
  SpotifyUri.parse (js "https://open.spotify.com/track/ABC123?si=xyz")
  = Normal {| type := js "track"; toURI := js "spotify:track:ABC123" |} /\
  (getSpotifyURI SpotifyUri.parse
     (js "<https://open.spotify.com/album/A> <https://open.spotify.com/track/ABC123?si=xyz>")
     idle).1
  = Normal (str (js "https://open.spotify.com/album/A")) /\
  (getSpotifyURI SpotifyUri.parse
     (js "<https://open.spotify.com/album/A> <https://open.spotify.com/track/ABC123?si=xyz>")
     idle).1
  <> Normal (str (js "spotify:track:ABC123")) /\
  candidate (js "<https://open.spotify.com/track/ABC123>.")
  = str (js "https://open.spotify.com/track/ABC123>") /\
  (getSpotifyURI SpotifyUri.parse
     (js "<https://open.spotify.com/track/ABC123>.") idle).1
  <> Normal (str (js "spotify:track:ABC123")).
Proof.
  split; [vm_compute; reflexivity|]. split; [vm_compute; reflexivity|].
  split; [vm_compute; reflexivity|]. split; [vm_compute; discriminate|].
  split; [vm_compute; reflexivity|]. vm_compute. discriminate.
Qed.

(** ** Requests to the service *)

Lemma request_run {A} (e : Event) (serve : Service A) (w : World) :
  request e serve w =
  (Normal (if accepted w then Normal (serve w).1 else Throw WebapiError),
   answered e serve w).
Proof.
  unfold request, answered. destruct (accepted w); [|reflexivity].
  destruct (serve w) as [a pl]. reflexivity.
Qed.

Lemma accepted_outcome w : accepted w = outcome 0 w.
Proof. unfold accepted, outcome. destruct (outcomes w); reflexivity. Qed.

Lemma outcome_answered {A} e (serve : Service A) w n :
  outcome n (answered e serve w) = outcome (S n) w.
Proof.
  unfold outcome, answered. simpl.
  destruct (outcomes w) as [|b os]; simpl; [destruct n|]; reflexivity.
Qed.

Lemma now_answered {A} e (serve : Service A) w :
  now (answered e serve w) = now w.
Proof. reflexivity. Qed.

Lemma trace_answered {A} e (serve : Service A) w :
  trace (answered e serve w) = trace w ++ [e].
Proof. reflexivity. Qed.

(** ** Playlist pruner *)

Lemma is_old_ms (TODAY window : Z) (t : PlaylistTrack) :
  is_old TODAY window t = (window * 86400000 <=? TODAY - added_at t)%Z.
Proof.
  unfold is_old, diffInDays, diffInTime, Qle_bool. simpl.
  rewrite Z.mul_1_r. reflexivity.
Qed.



Lemma tracksToRemove_spec (TODAY window : Z) items t :
  t ∈ tracksToRemove TODAY window items <->
  t ∈ items /\ is_old TODAY window t = true.
Proof.
  unfold tracksToRemove. rewrite !list_elem_of_In. apply filter_In.
Qed.

(** One run of the pruner, by the outcomes of its two requests. *)
Lemma prune_run client playlistID window w :
  pruneOldTracksFromPlaylist client playlistID window w =
  let uris :=
    tracksToRemoveURIs (now w) window (take 50 (entries w playlistID)) in
  let listed :=
    answered (ApiGetPlaylistTracks playlistID 50) (serve_list playlistID 50) w in
  let removed :=
    answered (ApiRemoveTracksFromPlaylist playlistID uris)
             (serve_remove playlistID uris) listed in
  if outcome 0 w then
    if outcome 1 w then
      (Normal tt, recorded removed [ConsoleLog (MsgPruned (length uris) playlistID)])
    else (Throw WebapiError, removed)
  else (Throw WebapiError, listed).
Proof.
  unfold pruneOldTracksFromPlaylist, getPlaylistTracks, removeTracksFromPlaylist.
  run_route. rewrite request_run, accepted_outcome.
  destruct (outcome 0 w) eqn:H0; [|reflexivity].
  cbv beta iota.
  rewrite request_run, accepted_outcome, outcome_answered.
  change (serve_list playlistID 50 w).1 with (take 50 (entries w playlistID)).
  destruct (outcome 1 w) eqn:H1; reflexivity.
Qed.

(** *** The playlists after a request *)

Lemma entries_recorded w events p : entries (recorded w events) p = entries w p.
Proof. reflexivity. Qed.

Lemma entries_refreshed w p :
  entries (answered ApiRefreshAccessToken serve_refresh w) p = entries w p.
Proof. unfold answered, entries. simpl. destruct (accepted w); reflexivity. Qed.

Lemma entries_listed e playlistID limit w p :
  entries (answered e (serve_list playlistID limit) w) p = entries w p.
Proof. unfold answered, entries. simpl. destruct (accepted w); reflexivity. Qed.

Lemma entries_removed e playlistID uris w p :
  entries (answered e (serve_remove playlistID uris) w) p =
  if accepted w && bool_decide (p = playlistID)
  then List.filter (fun t => negb (uri_in uris t)) (entries w playlistID)
  else entries w p.
Proof.
  unfold answered, entries at 1. simpl.
  destruct (accepted w); simpl; [|reflexivity].
  destruct (bool_decide_reflect (p = playlistID)) as [->|Hne].
  - rewrite lookup_insert_eq. reflexivity.
  - rewrite lookup_insert_ne by congruence. reflexivity.
Qed.

Lemma entries_added e playlistID tracks w p :
  entries (answered e (serve_add playlistID tracks) w) p =
  if accepted w && bool_decide (p = playlistID)
  then entries w playlistID ++ map (added_now w) tracks
  else entries w p.
Proof.
  unfold answered, entries at 1. simpl.
  destruct (accepted w); simpl; [|reflexivity].
  destruct (bool_decide_reflect (p = playlistID)) as [->|Hne].
  - rewrite lookup_insert_eq. reflexivity.
  - rewrite lookup_insert_ne by congruence. reflexivity.
Qed.

Lemma filter_none {A} (f : A -> bool) (l : list A) :
  (forall x, x ∈ l -> f x = false) -> List.filter f l = [].
Proof.
  induction l as [|x l IH]; intros H; simpl; [reflexivity|].
  rewrite (H x) by left. apply IH. intros y Hy. apply H. right. exact Hy.
Qed.

Lemma filter_all {A} (f : A -> bool) (l : list A) :
  (forall x, x ∈ l -> f x = true) -> List.filter f l = l.
Proof.
  induction l as [|x l IH]; intros H; simpl; [reflexivity|].
  rewrite (H x) by left. f_equal. apply IH. intros y Hy. apply H. right. exact Hy.
Qed.

Lemma remove_nothing (l : list PlaylistTrack) :
  List.filter (fun t => negb (uri_in [] t)) l = l.
Proof.
  apply filter_all. intros t _. unfold uri_in.
  rewrite bool_decide_eq_false_2; [reflexivity|]. apply not_elem_of_nil.
Qed.

(** After the removal of the old tracks of a list, none of the tracks
    left in it is old. *)
Lemma nothing_old_left (TODAY window : Z) (items : list PlaylistTrack) :
  tracksToRemove TODAY window
    (List.filter
       (fun t => negb (uri_in (tracksToRemoveURIs TODAY window items) t))
       items)
  = [].
Proof.
  apply filter_none. intros t Ht.
  apply list_elem_of_In, filter_In in Ht as [Ht Hkept].
  destruct (is_old TODAY window t) eqn:Hold; [|reflexivity].
  apply negb_true_iff in Hkept. unfold uri_in in Hkept.
  apply bool_decide_eq_false in Hkept. exfalso. apply Hkept.
  unfold tracksToRemoveURIs. apply list_elem_of_fmap. exists t.
  split; [reflexivity|]. apply tracksToRemove_spec.
  split; [apply list_elem_of_In; exact Ht|exact Hold].
Qed.

Lemma filter_sublist {A} (f : A -> bool) (l : list A) :
  List.filter f l `sublist_of` l.
Proof.
  induction l as [|x l IH]; simpl; [constructor|].
  destruct (f x); [apply sublist_skip|apply sublist_cons]; exact IH.
Qed.






(** C9, as the code has it.  For a playlist that fits in the one page
    the pruner fetches (at most 50 entries), with the clock unchanged and
    nothing added in between: after a run that went through, a second
    run selects no entry, its removal request (if it gets that far) names
    no track, and every playlist is left as it was. *)
Theorem second_prune_removes_nothing client playlistID window w w1 r2 w2 :
  (length (entries w playlistID) <= 50)%nat ->
  pruneOldTracksFromPlaylist client playlistID window w = (Normal tt, w1) ->
  pruneOldTracksFromPlaylist client playlistID window w1 = (r2, w2) ->
  now w1 = now w /\
  tracksToRemove (now w1) window (take 50 (entries w1 playlistID)) = [] /\
  (forall p, entries w2 p = entries w1 p) /\
  (forall p uris,
     ApiRemoveTracksFromPlaylist p uris ∈ drop (length (trace w1)) (trace w2) ->
     uris = []).
Proof.
  intros Hpage Hfirst Hsecond.
  rewrite prune_run in Hfirst. cbv zeta in Hfirst.
  destruct (outcome 0 w) eqn:H0; [|discriminate].
  destruct (outcome 1 w) eqn:H1; [|discriminate].
  injection Hfirst as <-.
  rewrite (take_ge (entries w playlistID)) in * by lia.
  set (uris := tracksToRemoveURIs (now w) window (entries w playlistID)) in *.
  set (listed := answered (ApiGetPlaylistTracks playlistID 50)
                          (serve_list playlistID 50) w) in *.
  set (removed := answered (ApiRemoveTracksFromPlaylist playlistID uris)
                           (serve_remove playlistID uris) listed) in *.
  set (w1 := recorded removed [ConsoleLog (MsgPruned (length uris) playlistID)])
    in *.
  assert (Hnow : now w1 = now w) by reflexivity.
  assert (Hleft : entries w1 playlistID
                  = List.filter (fun t => negb (uri_in uris t))
                                (entries w playlistID)).
  { unfold w1, removed. rewrite entries_recorded, entries_removed.
    unfold listed at 1. rewrite accepted_outcome, outcome_answered, H1.
    rewrite bool_decide_eq_true_2 by reflexivity. simpl.
    unfold listed. apply f_equal, entries_listed. }
  assert (Hnone : tracksToRemove (now w1) window (take 50 (entries w1 playlistID))
                  = []).
  { rewrite Hnow. apply filter_none. intros t Ht.
    apply (subseteq_take 50) in Ht. apply list_elem_of_In in Ht.
    assert (Hall := nothing_old_left (now w) window (entries w playlistID)).
    fold uris in Hall. rewrite <- Hleft in Hall.
    destruct (is_old (now w) window t) eqn:Hold; [|reflexivity].
    assert (Hin : t ∈ tracksToRemove (now w) window (entries w1 playlistID)).
    { apply tracksToRemove_spec. split; [apply list_elem_of_In, Ht|exact Hold]. }
    rewrite Hall in Hin. inversion Hin. }
  split; [exact Hnow|]. split; [exact Hnone|].
  rewrite prune_run in Hsecond. cbv zeta in Hsecond.
  unfold tracksToRemoveURIs in Hsecond. rewrite Hnone in Hsecond.
  simpl map in Hsecond. simpl length in Hsecond.
  destruct (outcome 0 w1); [destruct (outcome 1 w1)|];
    injection Hsecond as <- <-; (split; [intros p|intros p us]).
  - rewrite entries_recorded, entries_removed, !entries_listed, remove_nothing.
    destruct (accepted _); simpl; [|reflexivity].
    destruct (bool_decide_reflect (p = playlistID)) as [->|Hne]; reflexivity.
  - unfold recorded, answered. cbn [trace].
    rewrite <- !app_assoc, drop_app_length. simpl.
    intros H. no_other_removal H.
  - rewrite entries_removed, !entries_listed, remove_nothing.
    destruct (accepted _); simpl; [|reflexivity].
    destruct (bool_decide_reflect (p = playlistID)) as [->|Hne]; reflexivity.
  - unfold answered. cbn [trace].
    rewrite <- !app_assoc, drop_app_length. simpl.
    intros H. no_other_removal H.
  - apply entries_listed.
  - unfold answered. cbn [trace]. rewrite drop_app_length.
    intros H. no_other_removal H.
Qed.

Lemma second_prune_removes_nothing_witness :
  entries (pruneOldTracksFromPlaylist a_client (js "monthly") 30 mixed).2
          (js "monthly")
  = [ {| track := {| uri := js "spotify:track:new" |};
         added_at := 6134400000 |} ] /\
  forall p,
    entries
      (pruneOldTracksFromPlaylist a_client (js "monthly") 30
         (pruneOldTracksFromPlaylist a_client (js "monthly") 30 mixed).2).2 p
    = entries (pruneOldTracksFromPlaylist a_client (js "monthly") 30 mixed).2 p.
Proof.
  split; [vm_compute; reflexivity|].
  refine (proj1 (proj2 (proj2
    (second_prune_removes_nothing a_client (js "monthly") 30 mixed
       (pruneOldTracksFromPlaylist a_client (js "monthly") 30 mixed).2
       (pruneOldTracksFromPlaylist a_client (js "monthly") 30
          (pruneOldTracksFromPlaylist a_client (js "monthly") 30 mixed).2).1
       (pruneOldTracksFromPlaylist a_client (js "monthly") 30
          (pruneOldTracksFromPlaylist a_client (js "monthly") 30 mixed).2).2
       _ _ _)))).
  - vm_compute. lia.
  - vm_compute. reflexivity.
  - apply surjective_pairing.
Defined.

(** C9, as the specification words it, fails: of 51 tracks that are all
    30 days old the first run removes the 50 of the first page, and the
    second run, with nothing added and the clock unchanged, finds the
    remaining one on its page and removes it. *)
Lemma second_run_prunes_next_page :
  length (entries crowded (js "monthly")) = 51%nat /\
  (pruneOldTracksFromPlaylist a_client (js "monthly") 30 crowded).1 = Normal tt /\
  length
    (entries (pruneOldTracksFromPlaylist a_client (js "monthly") 30 crowded).2
             (js "monthly")) = 1%nat /\
  length
    (tracksToRemove 2592000000 30
       (take 50
          (entries
             (pruneOldTracksFromPlaylist a_client (js "monthly") 30 crowded).2
             (js "monthly")))) = 1%nat /\
  (pruneOldTracksFromPlaylist a_client (js "monthly") 30
     (pruneOldTracksFromPlaylist a_client (js "monthly") 30 crowded).2).1
  = Normal tt /\
  entries
    (pruneOldTracksFromPlaylist a_client (js "monthly") 30
       (pruneOldTracksFromPlaylist a_client (js "monthly") 30 crowded).2).2
    (js "monthly")
  = [].
Proof.
  repeat split; vm_compute; reflexivity.
Qed.

(** ** Playlist updater, src/unnamed/part_000 *)

Lemma addToPlaylists_run ARCHIVE MONTHLY api spotifyURL w :
  Rolling.addToPlaylists ARCHIVE MONTHLY api spotifyURL w =
  (Normal [settled_by (outcome 0 w); settled_by (outcome 1 w)],
   answered (ApiAddTracksToPlaylist MONTHLY [spotifyURL])
            (serve_add MONTHLY [spotifyURL])
            (answered (ApiAddTracksToPlaylist ARCHIVE [spotifyURL])
                      (serve_add ARCHIVE [spotifyURL]) w)).
Proof.
  unfold Rolling.addToPlaylists, addTracksToPlaylist, allSettled. run_route.
  rewrite request_run. cbv beta iota.
  rewrite request_run, !accepted_outcome, outcome_answered.
  unfold settled_by. destruct (outcome 0 w), (outcome 1 w); reflexivity.
Qed.

(** One run of the updater: the refresh, then the two adds behind the
    barrier, then the pruner, whose failure is the only one the [catch]
    ever sees. *)
Lemma addTrackToPlaylist_run ARCHIVE MONTHLY spotifyURL w :
  Rolling.addTrackToPlaylist ARCHIVE MONTHLY spotifyURL w =
  let refreshed := answered ApiRefreshAccessToken serve_refresh w in
  let settled :=
    answered (ApiAddTracksToPlaylist MONTHLY [spotifyURL])
             (serve_add MONTHLY [spotifyURL])
             (answered (ApiAddTracksToPlaylist ARCHIVE [spotifyURL])
                       (serve_add ARCHIVE [spotifyURL]) refreshed) in
  if outcome 0 w then
    match pruneOldTracksFromPlaylist a_client MONTHLY 30 settled with
    | (Normal _, pruned) =>
        (Normal tt, recorded pruned [ConsoleLog (MsgAdded spotifyURL)])
    | (Throw e, pruned) =>
        (Normal tt,
         recorded pruned [ConsoleError (MsgFailedToAdd spotifyURL e)])
    end
  else (Throw WebapiError, refreshed).
Proof.
  unfold Rolling.addTrackToPlaylist, refreshAccessToken. run_route.
  rewrite request_run, accepted_outcome.
  destruct (outcome 0 w) eqn:H0; [|reflexivity].
  cbv beta iota zeta. rewrite addToPlaylists_run.
  change (setAccessToken {| accessToken := AuthorizationCode |}
            (serve_refresh w).1) with a_client.
  destruct (pruneOldTracksFromPlaylist a_client MONTHLY 30 _) as [[[]|e] pruned];
    reflexivity.
Qed.

Lemma add_takes_effect e playlistID spotifyURL w :
  accepted w = true ->
  added_now w spotifyURL
  ∈ entries (answered e (serve_add playlistID [spotifyURL]) w) playlistID.
Proof.
  intros Hacc. rewrite entries_added, Hacc.
  rewrite bool_decide_eq_true_2 by reflexivity. simpl.
  apply elem_of_app. right. left.
Qed.

Lemma add_keeps e playlistID tracks w p t :
  t ∈ entries w p ->
  t ∈ entries (answered e (serve_add playlistID tracks) w) p.
Proof.
  intros Ht. rewrite entries_added.
  destruct (accepted w); simpl; [|exact Ht].
  destruct (bool_decide_reflect (p = playlistID)) as [->|Hne]; [|exact Ht].
  apply elem_of_app. left. exact Ht.
Qed.

Lemma prune_keeps_others client playlistID window w p :
  p <> playlistID ->
  entries (pruneOldTracksFromPlaylist client playlistID window w).2 p
  = entries w p.
Proof.
  intros Hne. rewrite prune_run. cbv zeta.
  destruct (outcome 0 w); [destruct (outcome 1 w)|]; simpl snd;
    rewrite ?entries_recorded, ?entries_removed, ?entries_listed;
    rewrite ?(bool_decide_eq_false_2 _ Hne), ?andb_false_r; reflexivity.
Qed.

(** What the pruner leaves in the record: its listing request first,
    and no request to add a track. *)
Lemma prune_trace client playlistID window w :
  exists rest,
    trace (pruneOldTracksFromPlaylist client playlistID window w).2
    = trace w ++ ApiGetPlaylistTracks playlistID 50 :: rest /\
    (forall e, e ∈ rest ->
       match e with ApiAddTracksToPlaylist _ _ => False | _ => True end).
Proof.
  rewrite prune_run. cbv zeta.
  destruct (outcome 0 w); [destruct (outcome 1 w)|]; simpl snd;
    unfold recorded, answered; cbn [trace]; rewrite <- ?app_assoc; simpl;
    eexists; (split; [reflexivity|]); intros e He;
    repeat (apply elem_of_cons in He as [->|He]); try exact I;
    apply elem_of_nil in He; contradiction.
Qed.

Lemma sent_200 res : sent res = None -> sent (end_ (status 200 res)) = Some 200%Z.
Proof. intros H. unfold end_, status. simpl. rewrite H. reflexivity. Qed.

Lemma sent_500_first res :
  sent res = None ->
  sent (end_ (status 200 (end_ (status 500 res)))) = Some 500%Z.
Proof. intros H. unfold end_, status. simpl. rewrite H. reflexivity. Qed.

(** The route, once the payload is valid and a reference came out of the
    text: the response is decided by the updater alone. *)
Lemma handler_reaches_updater parse ARCHIVE MONTHLY dev body tokens url res w w' :
  Rolling.parseSlackWebhookPayload body dev = Normal tokens ->
  isValidSlackWebhookPayload tokens = true ->
  getSpotifyURI parse (text_of tokens) (recorded w [ConsoleLog MsgAuthorizeURL])
  = (Normal (str url), w') ->
  Rolling.handler parse ARCHIVE MONTHLY dev body res w =
  match Rolling.addTrackToPlaylist ARCHIVE MONTHLY url w' with
  | (Normal _, w'') =>
      (Normal (end_ (status 200 res)), recorded w'' [ConsoleLog MsgJson])
  | (Throw _, w'') =>
      (Normal (end_ (status 200 (end_ (status 500 res)))), w'')
  end.
Proof.
  intros Hparse Hvalid Hextract.
  unfold Rolling.handler, getSpotifyAuthorizeURL. run_route.
  rewrite Hparse. cbv beta iota. rewrite Hvalid. cbv beta iota.
  change (negb true) with false. cbv beta iota.
  unfold recorded in Hextract. rewrite Hextract.
  destruct (Rolling.addTrackToPlaylist ARCHIVE MONTHLY url w') as [[[]|e] w''];
    reflexivity.
Qed.

(** C4.  Once a reference is extracted and the token refreshed, the
    updater issues one add request to the archive playlist and one to the
    monthly playlist, whatever the outcome of either, and goes on to the
    pruner only when both have settled; an accepted add puts the track in
    its playlist whether or not the other add was rejected; and the route
    answers 200 whatever the outcomes of the adds and of the pruner. *)
Theorem adds_settle_independently
    parse ARCHIVE MONTHLY dev body tokens url res w w' :
  Rolling.parseSlackWebhookPayload body dev = Normal tokens ->
  isValidSlackWebhookPayload tokens = true ->
  getSpotifyURI parse (text_of tokens) (recorded w [ConsoleLog MsgAuthorizeURL])
  = (Normal (str url), w') ->
  sent res = None ->
  outcome 0 w' = true ->
  exists settled final res',
    Rolling.addToPlaylists ARCHIVE MONTHLY a_client url
      (answered ApiRefreshAccessToken serve_refresh w')
    = (Normal [settled_by (outcome 1 w'); settled_by (outcome 2 w')], settled) /\
    trace settled
    = trace w' ++ [ApiRefreshAccessToken;
                   ApiAddTracksToPlaylist ARCHIVE [url];
                   ApiAddTracksToPlaylist MONTHLY [url]] /\
    (outcome 1 w' = true -> added_now w' url ∈ entries settled ARCHIVE) /\
    (outcome 2 w' = true -> added_now w' url ∈ entries settled MONTHLY) /\
    Rolling.addTrackToPlaylist ARCHIVE MONTHLY url w' = (Normal tt, final) /\
    (exists rest,
       trace final = trace settled ++ ApiGetPlaylistTracks MONTHLY 50 :: rest /\
       forall e, e ∈ rest ->
         match e with ApiAddTracksToPlaylist _ _ => False | _ => True end) /\
    (ARCHIVE <> MONTHLY -> outcome 1 w' = true ->
     added_now w' url ∈ entries final ARCHIVE) /\
    Rolling.handler parse ARCHIVE MONTHLY dev body res w
    = (Normal res', recorded final [ConsoleLog MsgJson]) /\
    sent res' = Some 200%Z.
Proof.
  intros Hparse Hvalid Hextract Hres Hrefresh.
  set (refreshed := answered ApiRefreshAccessToken serve_refresh w').
  set (first := answered (ApiAddTracksToPlaylist ARCHIVE [url])
                         (serve_add ARCHIVE [url]) refreshed).
  set (settled := answered (ApiAddTracksToPlaylist MONTHLY [url])
                           (serve_add MONTHLY [url]) first).
  assert (Harchive : outcome 1 w' = true -> added_now w' url ∈ entries settled ARCHIVE).
  { intros H1. apply add_keeps.
    apply (add_takes_effect _ ARCHIVE url refreshed).
    unfold refreshed. rewrite accepted_outcome, outcome_answered. exact H1. }
  assert (Hrun := addTrackToPlaylist_run ARCHIVE MONTHLY url w').
  cbv zeta in Hrun. rewrite Hrefresh in Hrun.
  fold refreshed first settled in Hrun.
  destruct (prune_trace a_client MONTHLY 30 settled) as (rest & Htrace & Hrest).
  assert (Hothers := prune_keeps_others a_client MONTHLY 30 settled ARCHIVE).
  destruct (pruneOldTracksFromPlaylist a_client MONTHLY 30 settled)
    as [[[]|e] pruned]; simpl snd in Htrace, Hothers.
  all: eexists settled, _, (end_ (status 200 res)).
  all: split; [rewrite addToPlaylists_run; unfold refreshed;
               rewrite !outcome_answered; reflexivity|].
  all: split; [unfold settled, first, refreshed, answered; cbn [trace];
               rewrite <- !app_assoc; reflexivity|].
  all: split; [exact Harchive|].
  all: split; [intros H2; apply (add_takes_effect _ MONTHLY url first);
               unfold first, refreshed;
               rewrite accepted_outcome, !outcome_answered; exact H2|].
  all: split; [exact Hrun|].
  all: split; [eexists; split;
               [unfold recorded; cbn [trace]; rewrite Htrace, <- app_assoc;
                reflexivity|];
               intros ev Hev; apply elem_of_app in Hev as [Hev|Hev];
               [apply Hrest, Hev|];
               apply elem_of_cons in Hev as [->|Hev]; [exact I|];
               apply elem_of_nil in Hev; contradiction|].
  all: split; [intros Hne H1; rewrite entries_recorded, Hothers by exact Hne;
               apply Harchive, H1|].
  all: split; [|apply sent_200, Hres].
  all: rewrite (handler_reaches_updater _ _ _ _ _ _ _ _ _ _ Hparse Hvalid Hextract),
         Hrun; reflexivity.
Qed.

(** The documented payload in local development, the monthly add
    rejected: the answer is 200 and the archive playlist has the track. *)
Lemma adds_settle_independently_witness :
  exists final res',
    Rolling.handler SpotifyUri.parse (js "archive") (js "monthly") true
      (TString documented_payload) fresh_res second_add_down
    = (Normal res', recorded final [ConsoleLog MsgJson]) /\
    sent res' = Some 200%Z /\
    added_now second_add_down documented_track ∈ entries final (js "archive").
Proof.
  destruct (adds_settle_independently SpotifyUri.parse (js "archive")
              (js "monthly") true (TString documented_payload)
              (TObject (split_reduce documented_payload)) documented_track
              fresh_res second_add_down
              (extracted second_add_down documented_track))
    as (settled & final & res' & _ & _ & _ & _ & _ & _ & Harchive & Hroute & Hsent).
  - reflexivity.
  - vm_compute. reflexivity.
  - vm_compute. reflexivity.
  - reflexivity.
  - reflexivity.
  - exists final, res'. split; [exact Hroute|]. split; [exact Hsent|].
    apply Harchive; [vm_compute; discriminate|reflexivity].
Defined.

(** The part of C2 that the later revision does: a rejected refresh is
    thrown to the route before any add request, and the response that
    goes out carries 500 (the 200 set afterwards finds it already sent). *)
Lemma rolling_refresh_failure_is_500
    parse ARCHIVE MONTHLY dev body tokens url res w w' :
  Rolling.parseSlackWebhookPayload body dev = Normal tokens ->
  isValidSlackWebhookPayload tokens = true ->
  getSpotifyURI parse (text_of tokens) (recorded w [ConsoleLog MsgAuthorizeURL])
  = (Normal (str url), w') ->
  sent res = None ->
  outcome 0 w' = false ->
  exists final res',
    Rolling.addTrackToPlaylist ARCHIVE MONTHLY url w'
    = (Throw WebapiError, final) /\
    trace final = trace w' ++ [ApiRefreshAccessToken] /\
    (forall p, entries final p = entries w' p) /\
    Rolling.handler parse ARCHIVE MONTHLY dev body res w = (Normal res', final) /\
    sent res' = Some 500%Z.
Proof.
  intros Hparse Hvalid Hextract Hres Hrefresh.
  assert (Hrun : Rolling.addTrackToPlaylist ARCHIVE MONTHLY url w'
                 = (Throw WebapiError,
                    answered ApiRefreshAccessToken serve_refresh w')).
  { rewrite addTrackToPlaylist_run. cbv zeta. rewrite Hrefresh. reflexivity. }
  exists (answered ApiRefreshAccessToken serve_refresh w'),
         (end_ (status 200 (end_ (status 500 res)))).
  split; [exact Hrun|]. split; [reflexivity|].
  split; [intros p; apply entries_refreshed|].
  split; [|apply sent_500_first, Hres].
  rewrite (handler_reaches_updater _ _ _ _ _ _ _ _ _ _ Hparse Hvalid Hextract),
    Hrun. reflexivity.
Qed.

(** In the later revision a rejected add reaches neither the route nor
    the console: the barrier takes it, and with the pruner through the
    run even prints that the track was added. *)
Lemma rolling_add_failure_unlogged ARCHIVE MONTHLY url w :
  outcome 0 w = true ->
  outcome 1 w = false ->
  outcome 3 w = true ->
  outcome 4 w = true ->
  exists uris final,
    Rolling.addTrackToPlaylist ARCHIVE MONTHLY url w = (Normal tt, final) /\
    trace final
    = trace w ++ [ApiRefreshAccessToken;
                  ApiAddTracksToPlaylist ARCHIVE [url];
                  ApiAddTracksToPlaylist MONTHLY [url];
                  ApiGetPlaylistTracks MONTHLY 50;
                  ApiRemoveTracksFromPlaylist MONTHLY uris;
                  ConsoleLog (MsgPruned (length uris) MONTHLY);
                  ConsoleLog (MsgAdded url)].
Proof.
  intros H0 H1 H3 H4.
  rewrite addTrackToPlaylist_run. cbv zeta. rewrite H0, prune_run. cbv zeta.
  rewrite !outcome_answered, H3, H4.
  eexists _, _. split; [reflexivity|].
  unfold recorded, answered. cbn [trace]. rewrite <- !app_assoc. reflexivity.
Qed.

(** ** Playlist updater, src/pages/api/dj.ts *)

(** The chain left behind by the updater, by the outcomes of its
    requests: every rejection ends in the console. *)
Lemma reactions_run PLAYLIST api url (refreshing : Completion Token) w :
  Single.reactions PLAYLIST api url refreshing w =
  match refreshing with
  | Throw e => (Normal tt, recorded w [ConsoleLog (MsgSomethingWentWrong e)])
  | Normal _ =>
      let asked :=
        answered (ApiAddTracksToPlaylist PLAYLIST [url])
                 (serve_add PLAYLIST [url]) (recorded w [ConsoleLog MsgData]) in
      if outcome 0 w
      then (Normal tt, recorded asked [ConsoleLog MsgAddedTracks])
      else (Normal tt,
            recorded asked [ConsoleLog (MsgSomethingWentWrong WebapiError)])
  end.
Proof.
  unfold Single.reactions, addTracksToPlaylist. run_route.
  destruct refreshing as [data|e]; [|reflexivity].
  rewrite request_run. cbv beta iota zeta.
  assert (Hacc : accepted (recorded w [ConsoleLog MsgData]) = outcome 0 w).
  { rewrite accepted_outcome. reflexivity. }
  unfold recorded in Hacc |- *. rewrite Hacc.
  destruct (outcome 0 w); reflexivity.
Qed.

Lemma single_updater_run PLAYLIST url w :
  Single.addTrackToPlaylist PLAYLIST url w =
  (Normal (Single.reactions PLAYLIST {| accessToken := AuthorizationCode |} url
             (if outcome 0 w then Normal RefreshedToken
              else Throw WebapiError)),
   answered ApiRefreshAccessToken serve_refresh w).
Proof.
  unfold Single.addTrackToPlaylist, refreshAccessToken. run_route.
  rewrite request_run, accepted_outcome. reflexivity.
Qed.

Lemma single_handler_reaches_updater
    parse PLAYLIST stringify body tokens url res w w' :
  Single.parseSlackWebhookPayload (TString (stringify body)) = Normal tokens ->
  isValidSlackWebhookPayload tokens = true ->
  getSpotifyURI parse (text_of tokens)
    (recorded w [ConsoleLog MsgBody; ConsoleLog MsgAuthorizeURL])
  = (Normal (str url), w') ->
  Single.handler parse PLAYLIST stringify body res w =
  (Normal (end_ (status 200 res),
           Some (Single.reactions PLAYLIST
                   {| accessToken := AuthorizationCode |} url
                   (if outcome 0 w' then Normal RefreshedToken
                    else Throw WebapiError))),
   recorded (answered ApiRefreshAccessToken serve_refresh w')
            [ConsoleLog MsgJson]).
Proof.
  intros Hparse Hvalid Hextract.
  unfold Single.handler, getSpotifyAuthorizeURL. run_route.
  rewrite Hparse. cbv beta iota. rewrite Hvalid.
  change (negb true) with false. cbv beta iota.
  unfold recorded in Hextract. cbn [playlists outcomes now trace].
  rewrite <- app_assoc. simpl app. rewrite Hextract.
  rewrite single_updater_run. reflexivity.
Qed.

(** C2, on the code of dj.ts.  When the service rejects the refresh, the
    updater still returns normally: the rejection goes to the [catch] of
    the detached chain, which prints it; nothing reaches the route, whose
    [catch] with the 500 is never entered, and the answer is 200.  No add
    request is issued. *)
Theorem refresh_failure_swallowed_by_chain
    parse PLAYLIST stringify body tokens url res w w' :
  Single.parseSlackWebhookPayload (TString (stringify body)) = Normal tokens ->
  isValidSlackWebhookPayload tokens = true ->
  getSpotifyURI parse (text_of tokens)
    (recorded w [ConsoleLog MsgBody; ConsoleLog MsgAuthorizeURL])
  = (Normal (str url), w') ->
  sent res = None ->
  outcome 0 w' = false ->
  exists chain asked final res',
    Single.addTrackToPlaylist PLAYLIST url w' = (Normal chain, asked) /\
    Single.invocation parse PLAYLIST stringify body res w = (Normal res', final) /\
    sent res' = Some 200%Z /\
    trace final
    = trace w' ++ [ApiRefreshAccessToken; ConsoleLog MsgJson;
                   ConsoleLog (MsgSomethingWentWrong WebapiError)].
Proof.
  intros Hparse Hvalid Hextract Hres Hrefresh.
  eexists _, _, _, (end_ (status 200 res)).
  split; [apply single_updater_run|].
  split; [|split; [apply sent_200, Hres|]].
  - unfold Single.invocation. run_route.
    rewrite (single_handler_reaches_updater _ _ _ _ _ _ _ _ _
               Hparse Hvalid Hextract).
    cbv beta iota. simpl default. rewrite reactions_run, Hrefresh.
    reflexivity.
  - unfold recorded, answered. cbn [trace]. rewrite <- !app_assoc.
    reflexivity.
Qed.

Lemma refresh_failure_swallowed_by_chain_witness :
  exists final res',
    Single.invocation SpotifyUri.parse (js "playlist") json_quote
      (TString padded_payload) fresh_res refresh_down
    = (Normal res', final) /\
    sent res' = Some 200%Z /\
    trace final
    = [ConsoleLog MsgBody; ConsoleLog MsgAuthorizeURL;
       ConsoleLog (MsgText documented_track);
       ApiRefreshAccessToken; ConsoleLog MsgJson;
       ConsoleLog (MsgSomethingWentWrong WebapiError)].
Proof.
  destruct (refresh_failure_swallowed_by_chain SpotifyUri.parse (js "playlist")
              json_quote (TString padded_payload)
              (TObject (split_reduce (json_quote (TString padded_payload))))
              documented_track fresh_res refresh_down
              (recorded refresh_down
                 [ConsoleLog MsgBody; ConsoleLog MsgAuthorizeURL;
                  ConsoleLog (MsgText documented_track)]))
    as (chain & asked & final & res' & _ & Hrun & Hsent & Htrace).
  - reflexivity.
  - vm_compute. reflexivity.
  - vm_compute. reflexivity.
  - reflexivity.
  - reflexivity.
  - exists final, res'. split; [exact Hrun|]. split; [exact Hsent|].
    rewrite Htrace. reflexivity.
Defined.

(** ** The route on concrete requests *)

(** The validator asks for a non-empty string under each required key. *)
Lemma isValidSlackWebhookPayload_spec (tokens : Tokens) :
  isValidSlackWebhookPayload tokens = true <->
  forall key, key ∈ MUST_HAVE_KEYS ->
    exists c s, get_prop tokens key = str (c :: s).
Proof.
  unfold isValidSlackWebhookPayload. rewrite forallb_forall. split.
  - intros H key Hkey. apply list_elem_of_In in Hkey. specialize (H key Hkey).
    destruct (get_prop tokens key) as [|[|c s]]; try discriminate. eauto.
  - intros H key Hkey. apply list_elem_of_In in Hkey.
    destruct (H key Hkey) as (c & s & ->). reflexivity.
Qed.

(** The documented payload, every request accepted: one add request for
    each playlist, the pruner, and 200. *)
Example documented_payload_handled :
  exists final,
    Rolling.handler SpotifyUri.parse (js "archive") (js "monthly") true
      (TString documented_payload) fresh_res idle
    = (Normal {| statusCode := 200; sent := Some 200%Z |}, final) /\
    trace final
    = [ConsoleLog MsgAuthorizeURL; ConsoleLog (MsgText documented_track);
       ApiRefreshAccessToken;
       ApiAddTracksToPlaylist (js "archive") [documented_track];
       ApiAddTracksToPlaylist (js "monthly") [documented_track];
       ApiGetPlaylistTracks (js "monthly") 50;
       ApiRemoveTracksFromPlaylist (js "monthly") [];
       ConsoleLog (MsgPruned 0 (js "monthly"));
       ConsoleLog (MsgAdded documented_track);
       ConsoleLog MsgJson] /\
    entries final (js "archive") = [added_now idle documented_track] /\
    entries final (js "monthly") = [added_now idle documented_track].
Proof.
  eexists. split; [vm_compute; reflexivity|].
  split; [vm_compute; reflexivity|]. split; vm_compute; reflexivity.
Qed.

(** An album link: the route takes the link for a reference, sends it to
    both playlists and answers 200. *)
Example album_link_goes_to_the_updater :
  exists final,
    Rolling.handler SpotifyUri.parse (js "archive") (js "monthly") true
      (TString album_payload) fresh_res idle
    = (Normal {| statusCode := 200; sent := Some 200%Z |}, final) /\
    ApiAddTracksToPlaylist (js "archive")
      [js "https://open.spotify.com/album/XYZ"] ∈ trace final.
Proof.
  eexists. split; [vm_compute; reflexivity|].
  vm_compute. do 2 right. left.
Qed.

(** The archive add rejected: the run prints that the track was added
    and no error line. *)
Example rejected_add_leaves_no_error_line :
  exists final,
    Rolling.addTrackToPlaylist (js "archive") (js "monthly") documented_track
      first_add_down
    = (Normal tt, final) /\
    trace final
    = [ApiRefreshAccessToken;
       ApiAddTracksToPlaylist (js "archive") [documented_track];
       ApiAddTracksToPlaylist (js "monthly") [documented_track];
       ApiGetPlaylistTracks (js "monthly") 50;
       ApiRemoveTracksFromPlaylist (js "monthly") [];
       ConsoleLog (MsgPruned 0 (js "monthly"));
       ConsoleLog (MsgAdded documented_track)] /\
    entries final (js "archive") = [].
Proof.
  eexists. split; [vm_compute; reflexivity|].
  split; vm_compute; reflexivity.
Qed.

(** A rejected refresh in the later revision: 500 goes out, no add. *)
Example rejected_refresh_is_500 :
  exists res' final,
    Rolling.handler SpotifyUri.parse (js "archive") (js "monthly") true
      (TString documented_payload) fresh_res refresh_down
    = (Normal res', final) /\
    sent res' = Some 500%Z /\
    trace final
    = [ConsoleLog MsgAuthorizeURL; ConsoleLog (MsgText documented_track);
       ApiRefreshAccessToken].
Proof.
  eexists _, _. split; [vm_compute; reflexivity|].
  split; vm_compute; reflexivity.
Qed.

(** * Further properties of the route *)

(** ** Payload normalizer and validator *)

Lemma before_first_free sep (s : jsstring) : sep ∉ before_first sep s.
Proof.
  induction s as [|c s IH]; simpl; [apply not_elem_of_nil|].
  destruct (N.eqb_spec c sep) as [->|Hne]; [apply not_elem_of_nil|].
  apply not_elem_of_cons. split; [congruence|exact IH].
Qed.

Lemma before_first_sub sep (s : jsstring) c :
  c ∈ before_first sep s -> c ∈ s.
Proof.
  induction s as [|d s IH]; simpl; [intros H; exact H|].
  destruct (d =? sep); [intros H; inversion H|].
  intros H. apply elem_of_cons in H as [->|H]; [left|right; apply IH, H].
Qed.

Lemma after_first_sub sep (s rest : jsstring) c :
  after_first sep s = Some rest -> c ∈ rest -> c ∈ s.
Proof.
  induction s as [|d s IH]; simpl; [discriminate|].
  destruct (d =? sep).
  - intros H. injection H as <-. intros Hc. right. exact Hc.
  - intros H Hc. right. apply IH; assumption.
Qed.

Lemma plain_free (s : jsstring) :
  plain s = true <-> (amp ∉ s) /\ (equals ∉ s).
Proof.
  unfold plain. induction s as [|c s IH]; simpl.
  - split; [intros _; split; apply not_elem_of_nil|reflexivity].
  - rewrite andb_true_iff, IH, !not_elem_of_cons, negb_true_iff, orb_false_iff.
    rewrite !N.eqb_neq. split.
    + intros [[? ?] [? ?]]. repeat split; congruence.
    + intros [[? ?] [? ?]]. repeat split; congruence.
Qed.

Lemma key_of_pair (k v : jsstring) : equals ∉ k -> key_of (k ++ equals :: v) = k.
Proof.
  unfold key_of. induction k as [|c k IH]; intros Hk; simpl.
  - reflexivity.
  - apply not_elem_of_cons in Hk as [Hc Hk].
    destruct (N.eqb_spec c equals) as [->|_]; [congruence|].
    rewrite IH by exact Hk. reflexivity.
Qed.

Lemma after_first_none sep (s : jsstring) : sep ∉ s -> after_first sep s = None.
Proof.
  induction s as [|c s IH]; intros Hs; simpl; [reflexivity|].
  apply not_elem_of_cons in Hs as [Hc Hs].
  destruct (N.eqb_spec c sep) as [->|_]; [congruence|]. apply IH, Hs.
Qed.

Lemma value_of_pair (k v : jsstring) :
  equals ∉ k -> equals ∉ v -> value_of (k ++ equals :: v) = str v.
Proof.
  intros Hk Hv. unfold value_of.
  assert (Hafter : after_first equals (k ++ equals :: v) = Some v).
  { clear Hv. induction k as [|c k IH]; simpl; [reflexivity|].
    apply not_elem_of_cons in Hk as [Hc Hk].
    destruct (N.eqb_spec c equals) as [->|_]; [congruence|]. apply IH, Hk. }
  rewrite Hafter, before_first_whole; [reflexivity|].
  apply after_first_none, Hv.
Qed.

Lemma split_join (pairs : list (jsstring * jsstring)) :
  pairs <> [] ->
  Forall (fun kv => amp ∉ pair_text kv) pairs ->
  split amp (join_pairs pairs) = pair_text <$> pairs.
Proof.
  induction pairs as [|kv rest IH]; intros Hne Hfree; [congruence|].
  inversion Hfree as [|? ? Hkv Hrest]; subst.
  destruct rest as [|kv' rest].
  - simpl. apply split_whole, Hkv.
  - change (join_pairs (kv :: kv' :: rest))
      with (pair_text kv ++ amp :: join_pairs (kv' :: rest)).
    rewrite split_at by exact Hkv.
    rewrite IH by (congruence || exact Hrest). reflexivity.
Qed.

Lemma pair_text_free (kv : jsstring * jsstring) :
  plain kv.1 = true -> plain kv.2 = true -> amp ∉ pair_text kv.
Proof.
  intros H1 H2. apply plain_free in H1 as [H1 _]. apply plain_free in H2 as [H2 _].
  unfold pair_text. intros H. apply elem_of_app in H as [H|H]; [exact (H1 H)|].
  apply elem_of_cons in H as [H|H]; [discriminate|exact (H2 H)].
Qed.

(** The last pair that carries a key, found from the object. *)
Lemma foldl_reducer_last_pair (pairs : list jsstring) k v :
  foldl reducer ∅ pairs !! k = Some v ->
  exists pre cur post,
    pairs = pre ++ cur :: post /\ key_of cur = k /\ value_of cur = v /\
    Forall (fun later => key_of later ≠ k) post.
Proof.
  induction pairs as [|x pairs IH] using rev_ind; simpl.
  - rewrite lookup_empty. discriminate.
  - rewrite foldl_app. simpl. rewrite reducer_insert.
    destruct (decide (key_of x = k)) as [Hk|Hk].
    + rewrite Hk, lookup_insert_eq. intros H. injection H as <-.
      exists pairs, x, []. repeat split; [exact Hk|constructor].
    + rewrite lookup_insert_ne by exact Hk. intros H.
      destruct (IH H) as (pre & cur & post & -> & Hcur & Hv & Hpost).
      exists pre, cur, (post ++ [x]). rewrite <- app_assoc. simpl.
      repeat split; try assumption.
      apply Forall_app. split; [exact Hpost|]. constructor; [exact Hk|constructor].
Qed.

Lemma split_reduce_free (payload : jsstring) key value :
  split_reduce payload !! key = Some value ->
  plain key = true /\
  (forall s, value = str s -> plain s = true) /\
  (forall c, c ∈ key -> c ∈ payload) /\
  (forall s c, value = str s -> c ∈ s -> c ∈ payload).
Proof.
  intros Hlookup. unfold split_reduce in Hlookup.
  apply foldl_reducer_origin in Hlookup as [H|(cur & Hcur & <- & <-)];
    [rewrite lookup_empty in H; discriminate|].
  assert (Hamp : amp ∉ cur).
  { pose proof (split_pieces_free amp payload) as Hall.
    rewrite Forall_forall in Hall. apply Hall, Hcur. }
  assert (Hsub : forall c, c ∈ cur -> c ∈ payload).
  { clear Hamp. revert cur Hcur. unfold amp. generalize 38.
    intros sep. induction payload as [|d s IH]; simpl; intros cur Hcur c Hc.
    - apply list_elem_of_singleton in Hcur. subst cur. exact Hc.
    - destruct (d =? sep).
      + apply elem_of_cons in Hcur as [->|Hcur]; [inversion Hc|].
        right. eapply IH; eassumption.
      + destruct (split sep s) as [|piece pieces] eqn:Hs.
        * apply list_elem_of_singleton in Hcur. subst cur.
          apply list_elem_of_singleton in Hc. subst c. left.
        * apply elem_of_cons in Hcur as [->|Hcur].
          -- apply elem_of_cons in Hc as [->|Hc]; [left|right].
             apply (IH piece); [left|exact Hc].
          -- right. apply (IH cur); [right; exact Hcur|exact Hc]. }
  split; [|split; [|split]].
  - apply plain_free. split; [|apply before_first_free].
    intros H. apply Hamp. eapply before_first_sub, H.
  - intros s Hs. unfold value_of in Hs.
    destruct (after_first equals cur) as [rest|] eqn:Hrest; [|discriminate].
    injection Hs as <-. apply plain_free. split; [|apply before_first_free].
    intros H. apply Hamp. eapply after_first_sub; [exact Hrest|].
    eapply before_first_sub, H.
  - intros c Hc. apply Hsub. eapply before_first_sub, Hc.
  - intros s c Hs Hc. unfold value_of in Hs.
    destruct (after_first equals cur) as [rest|] eqn:Hrest; [|discriminate].
    injection Hs as <-. apply Hsub. eapply after_first_sub; [exact Hrest|].
    eapply before_first_sub, Hc.
Qed.

(** Every key of the object and every string value in it is free of "&"
    and of "=": a value with an "=" inside cannot come out of the
    normalizer. *)
Theorem tokens_free_of_separators (payload : jsstring) m key value :
  Single.parseSlackWebhookPayload (TString payload) = Normal (TObject m) \/
  Rolling.parseSlackWebhookPayload (TString payload) true = Normal (TObject m) ->
  m !! key = Some value ->
  plain key = true /\
  (forall s, value = str s -> plain s = true) /\
  (forall c, c ∈ key -> c ∈ payload) /\
  (forall s c, value = str s -> c ∈ s -> c ∈ payload).
Proof.
  intros [Hparse|Hparse] Hlookup; injection Hparse as <-;
    apply split_reduce_free, Hlookup.
Qed.

Lemma tokens_free_of_separators_witness :
  plain (js "text") = true /\ plain (js "a") = true.
Proof.
  destruct (tokens_free_of_separators (js "text=a=b")
              (split_reduce (js "text=a=b")) (js "text") (str (js "a")))
    as (Hkey & Hvalue & _).
  - left. reflexivity.
  - vm_compute. reflexivity.
  - split; [exact Hkey|apply Hvalue; reflexivity].
Defined.

(** A payload written from pairs whose keys are distinct and whose keys
    and values hold neither "&" nor "=" is read back as written: each key
    maps to its value, and there is nothing else in the object. *)
Theorem written_pairs_read_back (pairs : list (jsstring * jsstring)) :
  pairs <> [] ->
  Forall (fun kv => plain kv.1 = true /\ plain kv.2 = true) pairs ->
  NoDup pairs.*1 ->
  exists m : gmap jsstring JsVal,
    Single.parseSlackWebhookPayload (TString (join_pairs pairs))
    = Normal (TObject m) /\
    Rolling.parseSlackWebhookPayload (TString (join_pairs pairs)) true
    = Normal (TObject m) /\
    (forall k v, (k, v) ∈ pairs -> m !! k = Some (str v)) /\
    (forall k, is_Some (m !! k) -> k ∈ pairs.*1) /\
    size m = length pairs.
Proof.
  intros Hne Hplain Hnodup.
  exists (split_reduce (join_pairs pairs)).
  split; [reflexivity|]. split; [reflexivity|].
  assert (Hsplit : split amp (join_pairs pairs) = pair_text <$> pairs).
  { apply split_join; [exact Hne|].
    eapply Forall_impl; [exact Hplain|].
    intros kv [H1 H2]. apply pair_text_free; assumption. }
  assert (Hkeys : key_of <$> (pair_text <$> pairs) = pairs.*1).
  { clear Hne Hnodup Hsplit. induction Hplain as [|kv rest [H1 _] _ IH];
      [reflexivity|].
    rewrite !fmap_cons, IH. f_equal. unfold pair_text.
    apply key_of_pair. apply plain_free in H1 as [_ H1]. exact H1. }
  assert (Hdom : dom (split_reduce (join_pairs pairs))
                 = list_to_set (C := gset jsstring) pairs.*1).
  { unfold split_reduce.
    rewrite foldl_reducer_dom, dom_empty_L, (left_id_L ∅ (∪)), Hsplit, Hkeys.
    reflexivity. }
  split; [|split].
  - intros k v Hin.
    apply list_elem_of_split in Hin as (pre & post & ->).
    rewrite fmap_app, fmap_cons in Hnodup.
    apply NoDup_app in Hnodup as (_ & _ & Hpost).
    apply NoDup_cons in Hpost as [Hk _]. simpl in Hk.
    apply Forall_app in Hplain as [_ Hplain].
    inversion Hplain as [|? ? [Hpk Hpv] Hrest]; subst. simpl in Hpk, Hpv.
    apply plain_free in Hpk as [_ Hpk]. apply plain_free in Hpv as [_ Hpv].
    unfold split_reduce. rewrite Hsplit, fmap_app, fmap_cons.
    assert (Hkey : key_of (pair_text (k, v)) = k)
      by (apply key_of_pair, Hpk).
    assert (Hval : value_of (pair_text (k, v)) = str v)
      by (apply value_of_pair; assumption).
    assert (Hlater : Forall (fun later => key_of later ≠ key_of (pair_text (k, v)))
                            (pair_text <$> post)).
    { rewrite Hkey, Forall_fmap, Forall_forall. intros kv Hkv. simpl.
      assert (Hkv' : plain kv.1 = true).
      { rewrite Forall_forall in Hrest. apply (Hrest kv Hkv). }
      apply plain_free in Hkv' as [_ Hkv']. unfold pair_text.
      rewrite key_of_pair by exact Hkv'. intros Heq. apply Hk.
      rewrite <- Heq. apply list_elem_of_fmap. exists kv.
      split; [reflexivity|exact Hkv]. }
    pose proof (foldl_reducer_last (pair_text <$> pre) (pair_text <$> post)
                  (pair_text (k, v)) ∅ Hlater) as Hlast.
    rewrite Hkey, Hval in Hlast. exact Hlast.
  - intros k Hk. apply elem_of_dom in Hk. rewrite Hdom in Hk.
    apply elem_of_list_to_set in Hk. exact Hk.
  - rewrite <- size_dom, Hdom, size_list_to_set by exact Hnodup.
    apply length_fmap.
Qed.

Lemma written_pairs_read_back_witness :
  join_pairs [(js "token", js "T"); (js "channel_id", js "C");
              (js "text", js "%3Chttps%3A%2F%2Fopen.spotify.com%2Ftrack%2F6J1Qcreg3a9hlJuvJCvjl5%3Fsi%3D2vEISP1TS0iilwluZTeDSQ%3E")]
  = documented_payload /\
  exists m : gmap jsstring JsVal,
    Single.parseSlackWebhookPayload (TString documented_payload)
    = Normal (TObject m) /\
    m !! js "channel_id" = Some (str (js "C")) /\ size m = 3%nat.
Proof.
  split; [vm_compute; reflexivity|].
  destruct (written_pairs_read_back
              [(js "token", js "T"); (js "channel_id", js "C");
               (js "text", js "%3Chttps%3A%2F%2Fopen.spotify.com%2Ftrack%2F6J1Qcreg3a9hlJuvJCvjl5%3Fsi%3D2vEISP1TS0iilwluZTeDSQ%3E")])
    as (m & Hsingle & _ & Hlookup & _ & Hsize).
  - discriminate.
  - repeat constructor.
  - apply (bool_decide_unpack _). vm_compute. exact I.
  - exists m. split; [exact Hsingle|]. split; [|exact Hsize].
    apply Hlookup. right. left.
Defined.

Lemma remove_dups_length (l : list jsstring) :
  (length (remove_dups l) <= length l)%nat.
Proof.
  induction l as [|x l IH]; simpl; [lia|].
  destruct (decide_rel elem_of x l); simpl; lia.
Qed.

Lemma split_length sep (s : jsstring) :
  length (split sep s) = S (count_occ N.eq_dec s sep).
Proof.
  induction s as [|c s IH]; simpl; [reflexivity|].
  destruct (N.eqb_spec c sep) as [->|Hne].
  - destruct (N.eq_dec sep sep); [|congruence]. simpl. rewrite IH. reflexivity.
  - destruct (N.eq_dec c sep); [congruence|].
    destruct (split sep s); simpl in *; lia.
Qed.

(** The object is never empty, not even for the empty string, and it has
    at most one key more than the payload has "&". *)
Theorem tokens_size_bounds (payload : jsstring) :
  exists m : gmap jsstring JsVal,
    Single.parseSlackWebhookPayload (TString payload) = Normal (TObject m) /\
    Rolling.parseSlackWebhookPayload (TString payload) true = Normal (TObject m) /\
    (1 <= size m <= S (count_occ N.eq_dec payload amp))%nat.
Proof.
  exists (split_reduce payload).
  split; [reflexivity|]. split; [reflexivity|].
  - rewrite split_reduce_size, <- split_length. split.
    + rewrite split_first. simpl.
      destruct (decide_rel elem_of _ _) as [Hin|_]; simpl; [|lia].
      destruct (remove_dups _) eqn:Hd; simpl; [|lia].
      apply elem_of_remove_dups in Hin. rewrite Hd in Hin. inversion Hin.
    + etransitivity; [apply remove_dups_length|].
      rewrite length_fmap. reflexivity.
Qed.

(** Normalizer and validator together, on a payload written as pairs
    joined by "&": it passes exactly when, for each of the keys token,
    channel_id and text, the last pair that carries the key has a
    non-empty value.  The key of a pair is the text before its first "=",
    its value the text between that "=" and the next one.  A later pair
    with the same key and no value undoes an earlier good one. *)
Theorem payload_valid_iff (payload : jsstring) (pieces : list jsstring) :
  pairs_of payload pieces ->
  exists tokens,
    Single.parseSlackWebhookPayload (TString payload) = Normal tokens /\
    Rolling.parseSlackWebhookPayload (TString payload) true = Normal tokens /\
    (isValidSlackWebhookPayload tokens = true <->
     forall key, key ∈ [js "token"; js "channel_id"; js "text"] ->
       exists pre cur post rest,
         pieces = pre ++ cur :: post /\
         before_first equals cur = key /\
         Forall (fun later => before_first equals later ≠ key) post /\
         after_first equals cur = Some rest /\
         before_first equals rest <> []).
Proof.
  intros Hpieces. apply split_pairs_of in Hpieces.
  exists (TObject (split_reduce payload)).
  split; [reflexivity|]. split; [reflexivity|].
  rewrite isValidSlackWebhookPayload_spec.
  change MUST_HAVE_KEYS with [js "token"; js "channel_id"; js "text"].
  split.
  - intros H key Hkey. destruct (H key Hkey) as (c & s & Hget).
    unfold get_prop in Hget.
    destruct (split_reduce payload !! key) as [v|] eqn:Hlookup;
      [|discriminate].
    simpl in Hget. subst v. unfold split_reduce in Hlookup.
    apply foldl_reducer_last_pair in Hlookup
      as (pre & cur & post & Hsplit & Hk & Hv & Hpost).
    unfold value_of in Hv.
    destruct (after_first equals cur) as [rest|] eqn:Hrest; [|discriminate].
    injection Hv as Hv.
    exists pre, cur, post, rest.
    split; [congruence|]. split; [exact Hk|]. split; [exact Hpost|].
    split; [exact Hrest|]. rewrite Hv. discriminate.
  - intros H key Hkey.
    destruct (H key Hkey)
      as (pre & cur & post & rest & Hsplit & Hk & Hpost & Hrest & Hvalue).
    destruct (before_first equals rest) as [|c s] eqn:Hv; [congruence|].
    subst key.
    pose proof (foldl_reducer_last pre post cur ∅ Hpost) as Hlast.
    exists c, s. unfold get_prop, split_reduce. rewrite Hpieces, Hsplit.
    change (before_first equals cur) with (key_of cur). rewrite Hlast.
    unfold value_of. rewrite Hrest, Hv. reflexivity.
Qed.

(** The three required pairs pass; with one more pair, the key text
    without a value, the payload is turned down. *)
Lemma payload_valid_iff_witness :
  (exists tokens,
     Single.parseSlackWebhookPayload (TString (js "token=T&channel_id=C&text=x"))
     = Normal tokens /\
     isValidSlackWebhookPayload tokens = true) /\
  (exists tokens,
     Single.parseSlackWebhookPayload
       (TString (js "token=T&channel_id=C&text=x&text"))
     = Normal tokens /\
     isValidSlackWebhookPayload tokens = false).
Proof.
  split.
  - destruct (payload_valid_iff (js "token=T&channel_id=C&text=x")
                [js "token=T"; js "channel_id=C"; js "text=x"])
      as (tokens & Hsingle & _ & Hvalid).
    { split; [discriminate|]. split; [|reflexivity].
      repeat constructor; apply (bool_decide_unpack _); vm_compute; exact I. }
    exists tokens. split; [exact Hsingle|]. apply Hvalid.
    intros key Hkey.
    repeat (apply elem_of_cons in Hkey as [->|Hkey]).
    + exists [], (js "token=T"), [js "channel_id=C"; js "text=x"], (js "T").
      repeat split; try discriminate.
      repeat constructor; vm_compute; discriminate.
    + exists [js "token=T"], (js "channel_id=C"), [js "text=x"], (js "C").
      repeat split; try discriminate.
      repeat constructor; vm_compute; discriminate.
    + exists [js "token=T"; js "channel_id=C"], (js "text=x"), [], (js "x").
      repeat split; try discriminate. constructor.
    + inversion Hkey.
  - destruct (payload_valid_iff (js "token=T&channel_id=C&text=x&text")
                [js "token=T"; js "channel_id=C"; js "text=x"; js "text"])
      as (tokens & Hsingle & _ & Hvalid).
    { split; [discriminate|]. split; [|reflexivity].
      repeat constructor; apply (bool_decide_unpack _); vm_compute; exact I. }
    exists tokens. split; [exact Hsingle|].
    destruct (isValidSlackWebhookPayload tokens); [|reflexivity].
    destruct (proj1 Hvalid eq_refl (js "text"))
      as (pre & cur & post & rest & Hsplit & Hk & Hpost & Hrest & _).
    { do 2 right. left. }
    exfalso.
    destruct pre as [|p0 [|p1 [|p2 [|p3 [|p4 pre]]]]];
      inversion Hsplit; subst;
      try (vm_compute in Hk; discriminate);
      try (vm_compute in Hrest; discriminate).
    inversion Hpost as [|? ? Hne _]. apply Hne. reflexivity.
Defined.

(** The mode and the kind of body have to match.  Outside local
    development a string body is handed on unparsed and is always
    answered 400, with nothing printed and no request made; in local
    development an object body makes the route throw before it touches
    the response; and a string in local development is treated as the
    object it splits into is treated outside. *)
Theorem mode_and_body (parse : jsstring -> Completion ParsedUri)
    (ARCHIVE MONTHLY payload : jsstring) (m : gmap jsstring JsVal)
    (res : Res) (w : World) :
  Rolling.handler parse ARCHIVE MONTHLY false (TString payload) res w
  = (Normal (end_ (status 400 res)), w) /\
  Rolling.handler parse ARCHIVE MONTHLY true (TObject m) res w
  = (Throw TypeError, w) /\
  Rolling.handler parse ARCHIVE MONTHLY true (TString payload) res w
  = Rolling.handler parse ARCHIVE MONTHLY false
      (TObject (split_reduce payload)) res w.
Proof. repeat split. Qed.

(** ** Track reference extractor *)

Lemma escapes_bad (pre rest : jsstring) :
  bad_escape rest = true -> escapes (pre ++ percent :: rest) = None.
Proof.
  intros Hbad. remember (length pre) as n eqn:Hn. revert pre Hn.
  induction n as [n IH] using lt_wf_ind. intros pre Hn.
  destruct pre as [|c pre].
  - simpl. destruct rest as [|h1 [|h2 rest]]; try reflexivity.
    simpl in Hbad. destruct (hex_digit h1), (hex_digit h2);
      try reflexivity; discriminate.
  - change (escapes ((c :: pre) ++ percent :: rest))
      with (escapes (c :: pre ++ percent :: rest)).
    cbn [escapes]. destruct (c =? percent).
    + destruct pre as [|h1 [|h2 pre]].
      * simpl. destruct rest; reflexivity.
      * simpl. destruct (hex_digit h1); reflexivity.
      * change ((h1 :: h2 :: pre) ++ percent :: rest)
          with (h1 :: h2 :: (pre ++ percent :: rest)).
        cbv iota. rewrite (IH (length pre)); [|simpl in Hn; lia|reflexivity].
        destruct (hex_digit h1), (hex_digit h2); reflexivity.
    + rewrite (IH (length pre)); [reflexivity|simpl in Hn; lia|reflexivity].
Qed.

Lemma decode_percent_free (text : jsstring) :
  Forall (fun c => c <> percent) text -> decodeURIComponent text = Normal text.
Proof.
  intros Hfree. unfold decodeURIComponent.
  assert (Hesc : escapes text = Some (Unit <$> text)).
  { induction Hfree as [|c text Hc _ IH]; [reflexivity|].
    cbn [escapes]. apply N.eqb_neq in Hc. rewrite Hc, IH. reflexivity. }
  rewrite Hesc.
  assert (Hdec : decode_pieces (Unit <$> text) = Some text).
  { clear. induction text as [|c text IH]; [reflexivity|].
    rewrite fmap_cons. cbn [decode_pieces]. rewrite IH. reflexivity. }
  rewrite Hdec. reflexivity.
Qed.

Lemma URL_REGEX_none (s : jsstring) :
  URL_REGEX s = None <-> forall n, url_here (drop n s) = false.
Proof.
  split.
  - induction s as [|c s IH]; intros H n.
    + rewrite drop_nil. reflexivity.
    + simpl in H. destruct (url_here (c :: s)) eqn:Hhere; [discriminate|].
      destruct n as [|n]; [exact Hhere|]. simpl. apply IH, H.
  - intros H. destruct (URL_REGEX s) as [g|] eqn:Hr; [|reflexivity].
    apply URL_REGEX_match in Hr as (n & _ & Hn & _).
    rewrite H in Hn. discriminate.
Qed.

Lemma starts_with_trans (p q s : jsstring) :
  starts_with p q = true -> starts_with q s = true -> starts_with p s = true.
Proof.
  revert q s. induction p as [|a p IH]; intros [|b q] [|c s]; simpl;
    intros Hpq Hqs; try reflexivity; try discriminate.
  apply andb_true_iff in Hpq as [Hab Hpq].
  apply andb_true_iff in Hqs as [Hbc Hqs].
  apply N.eqb_eq in Hab, Hbc. subst. rewrite N.eqb_refl. simpl.
  eapply IH; eassumption.
Qed.

Lemma starts_with_removelast (p s : jsstring) :
  starts_with p s = true -> (length p < length s)%nat ->
  starts_with p (removelast s) = true.
Proof.
  revert s. induction p as [|a p IH]; intros s Hs Hlen; [reflexivity|].
  destruct s as [|b [|c s]]; simpl in Hlen; try lia.
  change (removelast (b :: c :: s)) with (b :: removelast (c :: s)).
  cbn [starts_with] in Hs |- *. apply andb_true_iff in Hs as [Hab Hs].
  rewrite Hab. apply (IH (c :: s)); [exact Hs|simpl; lia].
Qed.

Lemma url_here_http (s : jsstring) :
  url_here s = true -> starts_with (js "http") s = true.
Proof.
  unfold url_here. intros H. apply orb_true_iff in H as [H|H];
    (eapply starts_with_trans; [|exact H]); reflexivity.
Qed.

Lemma Forall_removelast {A} (P : A -> Prop) (l : list A) :
  Forall P l -> Forall P (removelast l).
Proof.
  induction 1 as [|x l Hx Hl IH]; [constructor|].
  destruct l as [|y l]; [constructor|].
  change (removelast (x :: y :: l)) with (x :: removelast (y :: l)).
  constructor; assumption.
Qed.

Lemma removelast_length {A} (l : list A) :
  length (removelast l) = pred (length l).
Proof.
  induction l as [|x l IH]; [reflexivity|].
  destruct l as [|y l]; [reflexivity|].
  change (removelast (x :: y :: l)) with (x :: removelast (y :: l)).
  simpl length in *. rewrite IH. reflexivity.
Qed.

(** A "%" in the text that is not followed by two hexadecimal digits
    makes the extractor throw a URIError, wherever it stands; the route
    does not catch it and leaves without any call on the response, the
    authorize URL already printed. *)
Theorem malformed_escape_throws
    parse ARCHIVE MONTHLY dev body tokens (pre rest : jsstring) res w :
  Rolling.parseSlackWebhookPayload body dev = Normal tokens ->
  isValidSlackWebhookPayload tokens = true ->
  text_of tokens = pre ++ percent :: rest ->
  bad_escape rest = true ->
  (forall w', getSpotifyURI parse (pre ++ percent :: rest) w'
              = (Throw URIError, w')) /\
  Rolling.handler parse ARCHIVE MONTHLY dev body res w
  = (Throw URIError, recorded w [ConsoleLog MsgAuthorizeURL]).
Proof.
  intros Hparse Hvalid Htext Hbad.
  assert (Hthrow : forall w', getSpotifyURI parse (pre ++ percent :: rest) w'
                              = (Throw URIError, w')).
  { intros w'. apply getSpotifyURI_malformed. unfold decodeURIComponent.
    rewrite escapes_bad by exact Hbad. reflexivity. }
  split; [exact Hthrow|].
  unfold Rolling.handler, getSpotifyAuthorizeURL. run_route.
  rewrite Hparse. cbv beta iota. rewrite Hvalid.
  change (negb true) with false. cbv beta iota.
  rewrite Htext, Hthrow. reflexivity.
Qed.

Lemma malformed_escape_throws_witness :
  Rolling.handler SpotifyUri.parse (js "archive") (js "monthly") true
    (TString (js "token=T&channel_id=C&text=100%")) fresh_res idle
  = (Throw URIError, recorded idle [ConsoleLog MsgAuthorizeURL]).
Proof.
  refine (proj2 (malformed_escape_throws SpotifyUri.parse (js "archive")
            (js "monthly") true (TString (js "token=T&channel_id=C&text=100%"))
            (TObject (split_reduce (js "token=T&channel_id=C&text=100%")))
            (js "100") [] fresh_res idle _ _ _ _)).
  - reflexivity.
  - vm_compute. reflexivity.
  - vm_compute. reflexivity.
  - reflexivity.
Defined.

(** The extractor answers with the absence marker exactly when the
    decoded text holds neither "http://" nor "https://" at any position
    (in lower case: the pattern has no [i] flag); the world is then left
    as it was. *)
Theorem undefined_iff_no_scheme parse text decoded w :
  decodeURIComponent text = Normal decoded ->
  ((getSpotifyURI parse text w).1 = Normal undefined <->
   forall n, url_here (drop n decoded) = false) /\
  ((getSpotifyURI parse text w).1 = Normal undefined ->
   (getSpotifyURI parse text w).2 = w).
Proof.
  intros Hd.
  rewrite (absence_marker_iff_no_url parse text decoded w Hd), URL_REGEX_none.
  split; [reflexivity|].
  intros H. apply URL_REGEX_none in H.
  rewrite (getSpotifyURI_no_url parse text decoded w Hd H). reflexivity.
Qed.

Lemma undefined_iff_no_scheme_witness :
  (getSpotifyURI SpotifyUri.parse (js "HTTPS://open.spotify.com/track/ABC123 ftp://x")
     idle).1
  = Normal undefined.
Proof.
  apply (proj1 (undefined_iff_no_scheme SpotifyUri.parse
                  (js "HTTPS://open.spotify.com/track/ABC123 ftp://x")
                  (js "HTTPS://open.spotify.com/track/ABC123 ftp://x") idle
                  ltac:(vm_compute; reflexivity))).
  apply URL_REGEX_none. vm_compute. reflexivity.
Defined.

(** What reaches the URI parser whenever a URL is found: a string that
    starts with "http", has at least six units and no space.  It is never
    empty, so the test [if (spotifyURL)] only keeps out the case without
    a match; and the match, searched again, is found whole. *)
Theorem parser_argument_shape (decoded group1 : jsstring) :
  URL_REGEX decoded = Some group1 ->
  candidate decoded = str (slice_0_m1 group1) /\
  truthy (candidate decoded) = true /\
  starts_with (js "http") (slice_0_m1 group1) = true /\
  (6 <= length (slice_0_m1 group1))%nat /\
  Forall (fun c => c <> space) (slice_0_m1 group1) /\
  URL_REGEX group1 = Some group1.
Proof.
  intros Hr.
  assert (Hc : candidate decoded = str (slice_0_m1 group1))
    by (unfold candidate; rewrite Hr; reflexivity).
  destruct (URL_REGEX_long _ _ Hr) as [Hhere Hlen].
  assert (Hrun : Forall (fun c => non_space c = true) group1).
  { apply URL_REGEX_match in Hr as (n & _ & _ & ->). apply take_while_all. }
  unfold slice_0_m1.
  split; [exact Hc|]. split; [|split; [|split; [|split]]].
  - rewrite Hc. unfold slice_0_m1.
    destruct (removelast_nonempty group1) as (c & rest & ->); [lia|reflexivity].
  - apply starts_with_removelast; [apply url_here_http, Hhere|simpl; lia].
  - rewrite removelast_length. lia.
  - apply Forall_removelast. eapply Forall_impl; [exact Hrun|].
    intros c Hns ->. discriminate.
  - rewrite (URL_REGEX_first 0 group1); [|reflexivity|exact Hhere].
    rewrite drop_0. f_equal.
    rewrite <- (app_nil_r group1) at 1. apply take_while_stop; [exact Hrun|exact I].
Qed.

Lemma parser_argument_shape_witness :
  candidate (js "see http://a b") = str (js "http://") /\
  URL_REGEX (js "http://a") = Some (js "http://a").
Proof.
  destruct (parser_argument_shape (js "see http://a b") (js "http://a"))
    as (Hc & _ & _ & _ & _ & Hagain).
  - vm_compute. reflexivity.
  - split; [exact Hc|exact Hagain].
Defined.

(** The extractor never reaches the service: playlists, pending outcomes
    and clock are as before.  When the candidate parses as a track it
    prints one line, the canonical URI, and returns that URI, and nothing
    else changes; in every other case it prints nothing. *)
Theorem extractor_only_prints parse text w :
  playlists (getSpotifyURI parse text w).2 = playlists w /\
  outcomes (getSpotifyURI parse text w).2 = outcomes w /\
  now (getSpotifyURI parse text w).2 = now w /\
  (forall decoded url parsed,
     decodeURIComponent text = Normal decoded ->
     candidate decoded = str url ->
     parse url = Normal parsed ->
     type parsed = js "track" ->
     getSpotifyURI parse text w
     = (Normal (str (toURI parsed)),
        recorded w [ConsoleLog (MsgText (toURI parsed))])) /\
  ((forall decoded url parsed,
      decodeURIComponent text = Normal decoded ->
      candidate decoded = str url ->
      parse url = Normal parsed ->
      type parsed <> js "track") ->
   trace (getSpotifyURI parse text w).2 = trace w).
Proof.
  split; [|split; [|split; [|split]]].
  1-3: destruct (decodeURIComponent text) as [decoded|e] eqn:Hd;
    [destruct (URL_REGEX decoded) as [g|] eqn:Hr;
     [rewrite (getSpotifyURI_candidate parse text decoded (slice_0_m1 g) w Hd)
        by (unfold candidate; rewrite Hr; reflexivity);
      destruct (parse (slice_0_m1 g)) as [parsed|e]; [|reflexivity];
      destruct (bool_decide (type parsed = js "track")); reflexivity
     |rewrite (getSpotifyURI_no_url parse text decoded w Hd Hr); reflexivity]
    |unfold getSpotifyURI; run_route; rewrite Hd; reflexivity].
  - intros decoded url parsed Hd Hc Hp Hty.
    rewrite (getSpotifyURI_candidate parse text decoded url w Hd Hc), Hp.
    rewrite bool_decide_eq_true_2 by exact Hty. reflexivity.
  - intros Hnever.
    destruct (decodeURIComponent text) as [decoded|e] eqn:Hd.
    + destruct (URL_REGEX decoded) as [g|] eqn:Hr.
      * assert (Hc : candidate decoded = str (slice_0_m1 g))
          by (unfold candidate; rewrite Hr; reflexivity).
        rewrite (getSpotifyURI_candidate parse text decoded _ w Hd Hc).
        destruct (parse (slice_0_m1 g)) as [parsed|e] eqn:Hp; [|reflexivity].
        rewrite bool_decide_eq_false_2; [reflexivity|].
        exact (Hnever decoded _ parsed eq_refl Hc Hp).
      * rewrite (getSpotifyURI_no_url parse text decoded w Hd Hr).
        reflexivity.
    + unfold getSpotifyURI. run_route. rewrite Hd. reflexivity.
Qed.

(** A track link is printed in its canonical form; for an album link
    nothing is printed. *)
Lemma extractor_only_prints_witness :
  trace (getSpotifyURI SpotifyUri.parse
           (js "<https://open.spotify.com/track/ABC123>") idle).2
  = [ConsoleLog (MsgText (js "spotify:track:ABC123"))] /\
  trace (getSpotifyURI SpotifyUri.parse
           (js "<https://open.spotify.com/album/XYZ>") idle).2
  = [].
Proof.
  split.
  - destruct (extractor_only_prints SpotifyUri.parse
                (js "<https://open.spotify.com/track/ABC123>") idle)
      as (_ & _ & _ & Hprint & _).
    rewrite (Hprint (js "<https://open.spotify.com/track/ABC123>")
               (js "https://open.spotify.com/track/ABC123")
               {| type := js "track"; toURI := js "spotify:track:ABC123" |});
      vm_compute; reflexivity.
  - destruct (extractor_only_prints SpotifyUri.parse
                (js "<https://open.spotify.com/album/XYZ>") idle)
      as (_ & _ & _ & _ & Hsilent).
    apply Hsilent. intros decoded url parsed Hd Hc Hp.
    vm_compute in Hd. injection Hd as <-.
    vm_compute in Hc. injection Hc as <-.
    vm_compute in Hp. injection Hp as <-.
    vm_compute. discriminate.
Defined.

(** A text without any "%" is searched as it stands: no URL gives the
    absence marker, and a URL gives what the parser makes of the match
    without its last unit. *)
Theorem percent_free_text_as_is parse text w :
  Forall (fun c => c <> percent) text ->
  decodeURIComponent text = Normal text /\
  getSpotifyURI parse text w =
  match URL_REGEX text with
  | None => (Normal undefined, w)
  | Some group1 =>
      match parse (removelast group1) with
      | Throw e => (Throw e, w)
      | Normal parsed =>
          if bool_decide (type parsed = js "track")
          then (Normal (str (toURI parsed)),
                recorded w [ConsoleLog (MsgText (toURI parsed))])
          else (Normal (str (removelast group1)), w)
      end
  end.
Proof.
  intros Hfree. pose proof (decode_percent_free text Hfree) as Hd.
  split; [exact Hd|].
  destruct (URL_REGEX text) as [g|] eqn:Hr.
  - apply (getSpotifyURI_candidate parse text text (removelast g) w Hd).
    unfold candidate. rewrite Hr. reflexivity.
  - apply (getSpotifyURI_no_url parse text text w Hd Hr).
Qed.

Lemma percent_free_text_as_is_witness :
  getSpotifyURI SpotifyUri.parse (js "<https://open.spotify.com/track/ABC123>") idle
  = (Normal (str (js "spotify:track:ABC123")),
     recorded idle [ConsoleLog (MsgText (js "spotify:track:ABC123"))]).
Proof.
  rewrite (proj2 (percent_free_text_as_is SpotifyUri.parse
                    (js "<https://open.spotify.com/track/ABC123>") idle
                    ltac:(repeat constructor; discriminate))).
  vm_compute. reflexivity.
Defined.

(** ** Playlist pruner *)



(** The selection grows with the clock and shrinks with the window:
    whatever is selected at some time for some window is selected at any
    later time for any shorter window. *)
Theorem later_or_shorter_selects_more
    (TODAY1 TODAY2 window1 window2 : Z) (items : list PlaylistTrack) t :
  (TODAY1 <= TODAY2)%Z ->
  (window2 <= window1)%Z ->
  t ∈ tracksToRemove TODAY1 window1 items ->
  t ∈ tracksToRemove TODAY2 window2 items.
Proof.
  intros Htime Hwindow Hin.
  apply tracksToRemove_spec in Hin as [Hin Hold].
  apply tracksToRemove_spec. split; [exact Hin|].
  rewrite is_old_ms in Hold |- *.
  apply Z.leb_le in Hold. apply Z.leb_le. lia.
Qed.

Lemma later_or_shorter_selects_more_witness :
  {| track := {| uri := js "spotify:track:old" |}; added_at := 6048000000 |}
  ∈ tracksToRemove 8640000001 29
      (take 50 (entries mixed (js "monthly"))).
Proof.
  apply (later_or_shorter_selects_more 8640000000 8640000001 30 29).
  - lia.
  - lia.
  - vm_compute. left.
Defined.



(** The pruner completes exactly when both of its requests are accepted.
    Otherwise it throws the rejection, and then no playlist has changed;
    when the listing is rejected no removal is requested at all. *)
Theorem pruner_fails_without_effect client playlistID window w :
  ((pruneOldTracksFromPlaylist client playlistID window w).1 = Normal tt <->
   outcome 0 w = true /\ outcome 1 w = true) /\
  ((pruneOldTracksFromPlaylist client playlistID window w).1 <> Normal tt ->
   (pruneOldTracksFromPlaylist client playlistID window w).1
   = Throw WebapiError /\
   forall p,
     entries (pruneOldTracksFromPlaylist client playlistID window w).2 p
     = entries w p) /\
  (outcome 0 w = false ->
   trace (pruneOldTracksFromPlaylist client playlistID window w).2
   = trace w ++ [ApiGetPlaylistTracks playlistID 50]).
Proof.
  rewrite prune_run. cbv zeta.
  destruct (outcome 0 w) eqn:H0; [destruct (outcome 1 w) eqn:H1|];
    cbn [fst snd].
  - split; [split; [intros _; split; reflexivity|reflexivity]|].
    split; [intros H; congruence|discriminate].
  - split; [split; [discriminate|intros [_ H]; discriminate]|].
    split; [|discriminate]. intros _. split; [reflexivity|]. intros p.
    rewrite entries_removed, !entries_listed.
    rewrite accepted_outcome, outcome_answered, H1. reflexivity.
  - split; [split; [discriminate|intros [H _]; discriminate]|].
    split; [|reflexivity]. intros _. split; [reflexivity|].
    intros p. apply entries_listed.
Qed.

(** Whatever the outcomes, the pruner only takes entries away: every
    playlist afterwards is what it was with some entries left out, in the
    same order, and a playlist other than the one given is untouched. *)
Theorem pruner_only_removes client playlistID window w p :
  entries (pruneOldTracksFromPlaylist client playlistID window w).2 p
  `sublist_of` entries w p /\
  (p <> playlistID ->
   entries (pruneOldTracksFromPlaylist client playlistID window w).2 p
   = entries w p).
Proof.
  split; [|apply prune_keeps_others].
  rewrite prune_run. cbv zeta.
  destruct (outcome 0 w); [destruct (outcome 1 w)|]; simpl snd;
    rewrite ?entries_recorded, ?entries_removed;
    repeat rewrite entries_listed; try reflexivity.
  all: destruct (accepted _); simpl; [|reflexivity].
  all: destruct (bool_decide_reflect (p = playlistID)) as [->|Hne];
    [apply filter_sublist|reflexivity].
Qed.

Lemma pruner_only_removes_witness :
  entries (pruneOldTracksFromPlaylist a_client (js "monthly") 30 crowded).2
          (js "archive")
  = entries crowded (js "archive").
Proof.
  apply (proj2 (pruner_only_removes a_client (js "monthly") 30 crowded
                  (js "archive"))).
  vm_compute. discriminate.
Defined.



(** ** Playlist updater, src/unnamed/part_000 *)

Lemma getSpotifyURI_frame parse text w :
  playlists (getSpotifyURI parse text w).2 = playlists w /\
  outcomes (getSpotifyURI parse text w).2 = outcomes w /\
  now (getSpotifyURI parse text w).2 = now w.
Proof.
  unfold getSpotifyURI. run_route.
  destruct (decodeURIComponent text) as [decoded|e]; [|repeat split].
  destruct (truthy (candidate decoded)); [|repeat split].
  destruct (candidate decoded) as [|url]; [repeat split|].
  destruct (parse url) as [parsed|e]; [|repeat split].
  destruct (bool_decide (type parsed = js "track")); repeat split.
Qed.

(** The playlists behind the barrier, in terms of the world before the
    first add request. *)
Lemma entries_settled ARCHIVE MONTHLY url w p :
  entries
    (answered (ApiAddTracksToPlaylist MONTHLY [url]) (serve_add MONTHLY [url])
       (answered (ApiAddTracksToPlaylist ARCHIVE [url])
          (serve_add ARCHIVE [url]) w)) p
  = entries w p
    ++ appended (outcome 0 w) ARCHIVE p (added_now w url)
    ++ appended (outcome 1 w) MONTHLY p (added_now w url).
Proof.
  rewrite entries_added, accepted_outcome, outcome_answered.
  rewrite !entries_added, accepted_outcome. unfold appended.
  change (added_now (answered (ApiAddTracksToPlaylist ARCHIVE [url])
                       (serve_add ARCHIVE [url]) w)) with (added_now w).
  destruct (outcome 1 w), (outcome 0 w); simpl andb;
    destruct (bool_decide_reflect (p = MONTHLY)) as [Hm|Hm];
    destruct (bool_decide_reflect (p = ARCHIVE)) as [Ha|Ha];
    subst; simpl;
    rewrite ?bool_decide_eq_true_2, ?(bool_decide_eq_false_2 _ Ha),
      ?(bool_decide_eq_false_2 _ Hm) by reflexivity;
    rewrite ?app_nil_r, <- ?app_assoc; try reflexivity.
Qed.

(** The two adds, exactly: each accepted request appends one entry for
    the track, stamped with the current time, at the end of its playlist,
    and nothing else changes.  With the same identifier configured for
    both playlists the track is appended twice. *)
Theorem adds_append ARCHIVE MONTHLY api url w :
  exists settled,
    Rolling.addToPlaylists ARCHIVE MONTHLY api url w
    = (Normal [settled_by (outcome 0 w); settled_by (outcome 1 w)], settled) /\
    (forall p,
       entries settled p
       = entries w p
         ++ appended (outcome 0 w) ARCHIVE p (added_now w url)
         ++ appended (outcome 1 w) MONTHLY p (added_now w url)) /\
    (ARCHIVE = MONTHLY -> outcome 0 w = true -> outcome 1 w = true ->
     entries settled MONTHLY
     = entries w MONTHLY ++ [added_now w url; added_now w url]) /\
    now settled = now w.
Proof.
  eexists. split; [apply addToPlaylists_run|].
  split; [intros p; apply entries_settled|]. split; [|reflexivity].
  intros <- H0 H1. rewrite entries_settled, H0, H1. unfold appended.
  rewrite bool_decide_eq_true_2 by reflexivity. reflexivity.
Qed.

Lemma prune_success client playlistID window w :
  outcome 0 w = true -> outcome 1 w = true ->
  exists w1,
    pruneOldTracksFromPlaylist client playlistID window w = (Normal tt, w1) /\
    entries w1 playlistID
    = List.filter
        (fun t => negb (uri_in (tracksToRemoveURIs (now w) window
                                  (take 50 (entries w playlistID))) t))
        (entries w playlistID) /\
    trace w1
    = trace w
      ++ [ApiGetPlaylistTracks playlistID 50;
          ApiRemoveTracksFromPlaylist playlistID
            (tracksToRemoveURIs (now w) window (take 50 (entries w playlistID)));
          ConsoleLog
            (MsgPruned
               (length (tracksToRemoveURIs (now w) window
                          (take 50 (entries w playlistID))))
               playlistID)].
Proof.
  intros H0 H1. rewrite prune_run. cbv zeta. rewrite H0, H1.
  eexists. split; [reflexivity|]. split.
  - rewrite entries_recorded, entries_removed, !entries_listed.
    rewrite accepted_outcome, outcome_answered, H1.
    rewrite bool_decide_eq_true_2 by reflexivity. reflexivity.
  - unfold recorded, answered. cbn [trace]. rewrite <- !app_assoc. reflexivity.
Qed.

(** The world behind the barrier of a run of the updater. *)
Lemma updater_settled ARCHIVE MONTHLY url w :
  let settled :=
    answered (ApiAddTracksToPlaylist MONTHLY [url]) (serve_add MONTHLY [url])
      (answered (ApiAddTracksToPlaylist ARCHIVE [url]) (serve_add ARCHIVE [url])
         (answered ApiRefreshAccessToken serve_refresh w)) in
  (forall n, outcome n settled = outcome (3 + n) w) /\
  now settled = now w /\
  trace settled
  = trace w ++ [ApiRefreshAccessToken; ApiAddTracksToPlaylist ARCHIVE [url];
                ApiAddTracksToPlaylist MONTHLY [url]] /\
  (forall p,
     entries settled p
     = entries w p
       ++ appended (outcome 1 w) ARCHIVE p (added_now w url)
       ++ appended (outcome 2 w) MONTHLY p (added_now w url)).
Proof.
  cbv zeta. split; [|split; [|split]].
  - intros n. rewrite !outcome_answered. reflexivity.
  - reflexivity.
  - unfold answered. cbn [trace]. rewrite <- !app_assoc. reflexivity.
  - intros p. rewrite entries_settled, entries_refreshed, !outcome_answered.
    reflexivity.
Qed.

(** A track that was just added can be gone at the end of the same run.
    When the first page of the monthly playlist holds an entry of the
    same track that is 30 days old or more, the removal request names
    the track, the service drops every entry of it, and the playlist ends
    without the track, while the run prints that it was added. *)
Theorem fresh_track_pruned_with_old_twin ARCHIVE MONTHLY url w old :
  outcome 0 w = true ->
  outcome 3 w = true ->
  outcome 4 w = true ->
  old ∈ take 50 (entries w MONTHLY) ->
  uri (track old) = url ->
  is_old (now w) 30 old = true ->
  exists final,
    Rolling.addTrackToPlaylist ARCHIVE MONTHLY url w = (Normal tt, final) /\
    (forall t, t ∈ entries final MONTHLY -> uri (track t) <> url) /\
    ApiRemoveTracksFromPlaylist MONTHLY
      (tracksToRemoveURIs (now w) 30
         (take 50 (entries w MONTHLY
                   ++ appended (outcome 1 w) ARCHIVE MONTHLY (added_now w url)
                   ++ appended (outcome 2 w) MONTHLY MONTHLY (added_now w url))))
    ∈ trace final /\
    ConsoleLog (MsgAdded url) ∈ trace final.
Proof.
  intros H0 H3 H4 Hpage Huri Hold.
  rewrite addTrackToPlaylist_run. cbv zeta. rewrite H0.
  destruct (updater_settled ARCHIVE MONTHLY url w)
    as (Hout & Hnow & Htrace & Hentries).
  cbv zeta in Hout, Hnow, Htrace, Hentries.
  destruct (prune_success a_client MONTHLY 30 _
              (eq_trans (Hout 0%nat) H3) (eq_trans (Hout 1%nat) H4))
    as (w1 & -> & Hleft & Htrace1).
  rewrite Hnow, Hentries in Hleft. rewrite Hnow, Hentries in Htrace1.
  eexists. split; [reflexivity|]. split; [|split].
  - intros t Ht. rewrite entries_recorded, Hleft in Ht.
    apply list_elem_of_In, filter_In in Ht as [_ Ht].
    apply negb_true_iff in Ht. unfold uri_in in Ht.
    apply bool_decide_eq_false in Ht. intros Heq. apply Ht.
    rewrite Heq, <- Huri. unfold tracksToRemoveURIs.
    apply list_elem_of_fmap. exists old. split; [reflexivity|].
    apply tracksToRemove_spec. split; [|exact Hold].
    rewrite take_app. apply elem_of_app. left. exact Hpage.
  - unfold recorded. cbn [trace]. rewrite Htrace1.
    apply elem_of_app. left. apply elem_of_app. right. right. left.
  - unfold recorded. cbn [trace]. apply elem_of_app. right. left.
Qed.

Lemma fresh_track_pruned_with_old_twin_witness :
  exists final,
    Rolling.addTrackToPlaylist (js "archive") (js "monthly") documented_track
      old_twin
    = (Normal tt, final) /\
    entries final (js "archive") = [added_now old_twin documented_track] /\
    forall t, t ∈ entries final (js "monthly") ->
              uri (track t) <> documented_track.
Proof.
  destruct (fresh_track_pruned_with_old_twin (js "archive") (js "monthly")
              documented_track old_twin
              {| track := {| uri := documented_track |}; added_at := 0 |})
    as (final & Hrun & Hgone & _).
  - reflexivity.
  - reflexivity.
  - reflexivity.
  - vm_compute. left.
  - reflexivity.
  - vm_compute. reflexivity.
  - exists final. split; [exact Hrun|]. split; [|exact Hgone].
    assert (Hfinal : final
                     = (Rolling.addTrackToPlaylist (js "archive") (js "monthly")
                          documented_track old_twin).2)
      by (rewrite Hrun; reflexivity).
    rewrite Hfinal. vm_compute. reflexivity.
Defined.

Lemma prune_events client playlistID window w :
  exists events,
    trace (pruneOldTracksFromPlaylist client playlistID window w).2
    = trace w ++ events /\
    List.filter is_request events
    = ApiGetPlaylistTracks playlistID 50
      :: (if outcome 0 w
          then [ApiRemoveTracksFromPlaylist playlistID
                  (tracksToRemoveURIs (now w) window
                     (take 50 (entries w playlistID)))]
          else []) /\
    (forall m, ConsoleError m ∉ events) /\
    (forall u, ConsoleLog (MsgAdded u) ∉ events).
Proof.
  rewrite prune_run. cbv zeta.
  destruct (outcome 0 w); [destruct (outcome 1 w)|]; simpl snd;
    unfold recorded, answered; cbn [trace]; rewrite <- ?app_assoc;
    eexists; (split; [reflexivity|]); (split; [reflexivity|]);
    split; intros m H;
    repeat (apply elem_of_cons in H as [H|H]); try discriminate;
    apply elem_of_nil in H; exact H.
Qed.

(** After an accepted refresh the updater always completes, and the line
    it closes with is decided by the pruner alone: "Added ... to
    playlist" when both requests of the pruner are accepted, whatever
    became of the adds, and otherwise the error line "Failed to add ..."
    with the pruner's rejection.  It is the only error line of the run. *)
Theorem closing_line_by_pruner ARCHIVE MONTHLY url w :
  outcome 0 w = true ->
  exists final events,
    Rolling.addTrackToPlaylist ARCHIVE MONTHLY url w = (Normal tt, final) /\
    trace final
    = trace w ++ events
      ++ [if outcome 3 w && outcome 4 w
          then ConsoleLog (MsgAdded url)
          else ConsoleError (MsgFailedToAdd url WebapiError)] /\
    (forall m, ConsoleError m ∉ events) /\
    (forall u, ConsoleLog (MsgAdded u) ∉ events).
Proof.
  intros H0. rewrite addTrackToPlaylist_run. cbv zeta. rewrite H0.
  destruct (updater_settled ARCHIVE MONTHLY url w)
    as (Hout & _ & Htrace & _).
  cbv zeta in Hout, Htrace.
  set (settled := answered (ApiAddTracksToPlaylist MONTHLY [url]) _ _) in *.
  destruct (prune_events a_client MONTHLY 30 settled)
    as (events & Hevents & _ & Hnoerr & Hnoadded).
  pose proof (prune_run a_client MONTHLY 30 settled) as Hrun.
  cbv zeta in Hrun. rewrite (Hout 0%nat), (Hout 1%nat) in Hrun.
  change (3 + 0)%nat with 3%nat in Hrun. change (3 + 1)%nat with 4%nat in Hrun.
  destruct (pruneOldTracksFromPlaylist a_client MONTHLY 30 settled)
    as [[[]|e] pruned] eqn:Hprune; simpl snd in Hevents.
  - assert (Hok : outcome 3 w && outcome 4 w = true).
    { destruct (outcome 3 w); [destruct (outcome 4 w)|]; simpl in Hrun |- *;
        congruence. }
    rewrite Hok.
    exists (recorded pruned [ConsoleLog (MsgAdded url)]),
           ([ApiRefreshAccessToken; ApiAddTracksToPlaylist ARCHIVE [url];
             ApiAddTracksToPlaylist MONTHLY [url]] ++ events).
    split; [reflexivity|]. split; [|split].
    + unfold recorded. cbn [trace]. rewrite Hevents, Htrace, <- !app_assoc.
      reflexivity.
    + intros m H. apply elem_of_app in H as [H|H]; [|exact (Hnoerr m H)].
      repeat (apply elem_of_cons in H as [H|H]); try discriminate.
      apply elem_of_nil in H. exact H.
    + intros u H. apply elem_of_app in H as [H|H]; [|exact (Hnoadded u H)].
      repeat (apply elem_of_cons in H as [H|H]); try discriminate.
      apply elem_of_nil in H. exact H.
  - assert (Hko : outcome 3 w && outcome 4 w = false /\ e = WebapiError).
    { destruct (outcome 3 w); [destruct (outcome 4 w)|]; simpl in Hrun |- *;
        split; congruence. }
    destruct Hko as [-> ->].
    exists (recorded pruned [ConsoleError (MsgFailedToAdd url WebapiError)]),
           ([ApiRefreshAccessToken; ApiAddTracksToPlaylist ARCHIVE [url];
             ApiAddTracksToPlaylist MONTHLY [url]] ++ events).
    split; [reflexivity|]. split; [|split].
    + unfold recorded. cbn [trace]. rewrite Hevents, Htrace, <- !app_assoc.
      reflexivity.
    + intros m H. apply elem_of_app in H as [H|H]; [|exact (Hnoerr m H)].
      repeat (apply elem_of_cons in H as [H|H]); try discriminate.
      apply elem_of_nil in H. exact H.
    + intros u H. apply elem_of_app in H as [H|H]; [|exact (Hnoadded u H)].
      repeat (apply elem_of_cons in H as [H|H]); try discriminate.
      apply elem_of_nil in H. exact H.
Qed.

Lemma closing_line_by_pruner_witness :
  exists final,
    Rolling.addTrackToPlaylist (js "archive") (js "monthly") documented_track
      listing_down
    = (Normal tt, final) /\
    last (trace final)
    = Some (ConsoleError (MsgFailedToAdd documented_track WebapiError)) /\
    entries final (js "archive") = [added_now listing_down documented_track] /\
    entries final (js "monthly") = [added_now listing_down documented_track].
Proof.
  destruct (closing_line_by_pruner (js "archive") (js "monthly")
              documented_track listing_down eq_refl)
    as (final & events & Hrun & Htrace & _).
  exists final. split; [exact Hrun|]. split.
  - rewrite Htrace, app_assoc, last_snoc. reflexivity.
  - assert (Hfinal : final
                     = (Rolling.addTrackToPlaylist (js "archive") (js "monthly")
                          documented_track listing_down).2)
      by (rewrite Hrun; reflexivity).
    rewrite Hfinal. split; vm_compute; reflexivity.
Defined.

(** Both adds rejected and the pruner through: the run closes with
    "Added ... to playlist" although no playlist has gained an entry. *)
Theorem nothing_added_yet_reported ARCHIVE MONTHLY url w :
  outcome 0 w = true ->
  outcome 1 w = false ->
  outcome 2 w = false ->
  outcome 3 w = true ->
  outcome 4 w = true ->
  exists final,
    Rolling.addTrackToPlaylist ARCHIVE MONTHLY url w = (Normal tt, final) /\
    last (trace final) = Some (ConsoleLog (MsgAdded url)) /\
    (forall m, ConsoleError m ∉ new_events w final) /\
    (forall p, entries final p `sublist_of` entries w p).
Proof.
  intros H0 H1 H2 H3 H4.
  rewrite addTrackToPlaylist_run. cbv zeta. rewrite H0.
  destruct (updater_settled ARCHIVE MONTHLY url w)
    as (Hout & Hnow & Htrace & Hentries).
  cbv zeta in Hout, Hnow, Htrace, Hentries.
  set (settled := answered (ApiAddTracksToPlaylist MONTHLY [url]) _ _) in *.
  assert (Hsame : forall p, entries settled p = entries w p).
  { intros p. rewrite Hentries, H1, H2. unfold appended. simpl.
    rewrite !app_nil_r. reflexivity. }
  pose proof (prune_keeps_others a_client MONTHLY 30 settled) as Hothers.
  destruct (prune_success a_client MONTHLY 30 settled
              (eq_trans (Hout 0%nat) H3) (eq_trans (Hout 1%nat) H4))
    as (w1 & Hrun & Hleft & Htrace1).
  rewrite Hrun in Hothers |- *. simpl snd in Hothers.
  eexists. split; [reflexivity|]. split; [|split].
  - unfold recorded. cbn [trace]. apply last_snoc.
  - intros m. unfold new_events, recorded. cbn [trace].
    rewrite Htrace1, Htrace, <- !app_assoc, drop_app_length. simpl.
    intros H. repeat (apply elem_of_cons in H as [H|H]); try discriminate.
    apply elem_of_nil in H. exact H.
  - intros p. rewrite entries_recorded.
    destruct (decide (p = MONTHLY)) as [->|Hne].
    + rewrite Hleft, Hsame. apply filter_sublist.
    + rewrite Hothers, Hsame by exact Hne. reflexivity.
Qed.

Lemma nothing_added_yet_reported_witness :
  exists final,
    Rolling.addTrackToPlaylist (js "archive") (js "monthly") documented_track
      both_adds_down
    = (Normal tt, final) /\
    last (trace final) = Some (ConsoleLog (MsgAdded documented_track)) /\
    entries final (js "archive") `sublist_of` [] /\
    entries final (js "monthly") `sublist_of` [].
Proof.
  destruct (nothing_added_yet_reported (js "archive") (js "monthly")
              documented_track both_adds_down)
    as (final & Hrun & Hlast & _ & Hsub); try reflexivity.
  exists final. split; [exact Hrun|]. split; [exact Hlast|].
  split; [apply (Hsub (js "archive"))|apply (Hsub (js "monthly"))].
Defined.

(** With two different playlists configured, the updater never takes
    anything away from the archive: whatever the outcomes, its former
    entries are still there, in order, at the head of the playlist.  And a
    playlist that is neither of the two is not touched. *)
Theorem archive_never_loses ARCHIVE MONTHLY url w :
  ARCHIVE <> MONTHLY ->
  entries w ARCHIVE
  `prefix_of`
  entries (Rolling.addTrackToPlaylist ARCHIVE MONTHLY url w).2 ARCHIVE /\
  (forall p, p <> ARCHIVE -> p <> MONTHLY ->
     entries (Rolling.addTrackToPlaylist ARCHIVE MONTHLY url w).2 p
     = entries w p).
Proof.
  intros Hne. rewrite addTrackToPlaylist_run. cbv zeta.
  destruct (outcome 0 w).
  - destruct (updater_settled ARCHIVE MONTHLY url w) as (_ & _ & _ & Hentries).
    cbv zeta in Hentries.
    set (settled := answered (ApiAddTracksToPlaylist MONTHLY [url]) _ _) in *.
    pose proof (prune_keeps_others a_client MONTHLY 30 settled) as Hothers.
    destruct (pruneOldTracksFromPlaylist a_client MONTHLY 30 settled)
      as [[[]|e] pruned]; simpl snd in Hothers |- *; rewrite entries_recorded.
    all: split;
      [rewrite Hothers, Hentries by exact Hne; apply prefix_app_r; reflexivity|].
    all: intros p Hpa Hpm; rewrite entries_recorded, Hothers, Hentries
        by exact Hpm; unfold appended;
      rewrite (bool_decide_eq_false_2 _ Hpa), (bool_decide_eq_false_2 _ Hpm),
        !andb_false_r; simpl; rewrite app_nil_r; reflexivity.
  - simpl snd. split; [rewrite entries_refreshed; reflexivity|].
    intros p _ _. apply entries_refreshed.
Qed.

Lemma archive_never_loses_witness :
  entries mixed (js "archive")
  `prefix_of`
  entries (Rolling.addTrackToPlaylist (js "archive") (js "monthly")
             documented_track mixed).2 (js "archive").
Proof.
  apply (proj1 (archive_never_loses (js "archive") (js "monthly")
                  documented_track mixed
                  ltac:(vm_compute; discriminate))).
Defined.

(** The requests of one run of the updater, in order and without any
    repetition: the refresh; then, only if it was accepted, one add for
    the archive, one add for the monthly playlist and the pruner's
    listing of the monthly playlist; then, only if the listing was
    accepted, one removal request.  A rejected request is never sent
    again. *)
Theorem updater_requests_in_order ARCHIVE MONTHLY url w :
  exists uris,
    List.filter is_request
      (new_events w (Rolling.addTrackToPlaylist ARCHIVE MONTHLY url w).2)
    = ApiRefreshAccessToken
      :: (if outcome 0 w
          then [ApiAddTracksToPlaylist ARCHIVE [url];
                ApiAddTracksToPlaylist MONTHLY [url];
                ApiGetPlaylistTracks MONTHLY 50]
               ++ (if outcome 3 w
                   then [ApiRemoveTracksFromPlaylist MONTHLY uris]
                   else [])
          else []).
Proof.
  rewrite addTrackToPlaylist_run. cbv zeta. unfold new_events.
  destruct (outcome 0 w).
  - destruct (updater_settled ARCHIVE MONTHLY url w) as (Hout & _ & Htrace & _).
    cbv zeta in Hout, Htrace.
    set (settled := answered (ApiAddTracksToPlaylist MONTHLY [url]) _ _) in *.
    destruct (prune_events a_client MONTHLY 30 settled)
      as (events & Hevents & Hrequests & _).
    rewrite (Hout 0%nat) in Hrequests. change (3 + 0)%nat with 3%nat in Hrequests.
    exists (tracksToRemoveURIs (now settled) 30 (take 50 (entries settled MONTHLY))).
    destruct (pruneOldTracksFromPlaylist a_client MONTHLY 30 settled)
      as [[[]|e] pruned]; simpl snd in Hevents |- *;
      unfold recorded; cbn [trace];
      rewrite Hevents, Htrace, <- !app_assoc, drop_app_length;
      rewrite !List.filter_app, Hrequests; simpl; rewrite ?app_nil_r; reflexivity.
  - exists []. simpl snd. unfold answered. cbn [trace].
    rewrite drop_app_length. reflexivity.
Qed.

(** ** The route, src/unnamed/part_000 *)

Lemma sent_400_first res : sent res = None -> sent (end_ (status 400 res)) = Some 400%Z.
Proof. intros H. unfold end_, status. simpl. rewrite H. reflexivity. Qed.

(** What the extractor adds to the record holds no request. *)
Lemma extractor_trace parse text w :
  exists logs,
    trace (getSpotifyURI parse text w).2 = trace w ++ logs /\
    List.filter is_request logs = [].
Proof.
  unfold getSpotifyURI. run_route.
  destruct (decodeURIComponent text) as [decoded|e];
    [|exists []; split; [symmetry; apply app_nil_r|reflexivity]].
  destruct (truthy (candidate decoded));
    [|exists []; split; [symmetry; apply app_nil_r|reflexivity]].
  destruct (candidate decoded) as [|url];
    [exists []; split; [symmetry; apply app_nil_r|reflexivity]|].
  destruct (parse url) as [parsed|e];
    [|exists []; split; [symmetry; apply app_nil_r|reflexivity]].
  destruct (bool_decide (type parsed = js "track")).
  - eexists. split; reflexivity.
  - exists []. split; [symmetry; apply app_nil_r|reflexivity].
Qed.

Lemma handler_run parse ARCHIVE MONTHLY dev body res w :
  Rolling.handler parse ARCHIVE MONTHLY dev body res w =
  match Rolling.parseSlackWebhookPayload body dev with
  | Throw e => (Throw e, w)
  | Normal tokens =>
      if isValidSlackWebhookPayload tokens then
        match getSpotifyURI parse (text_of tokens)
                (recorded w [ConsoleLog MsgAuthorizeURL]) with
        | (Throw e, w') => (Throw e, w')
        | (Normal undefined, w') => (Normal (end_ (status 400 res)), w')
        | (Normal (str url), w') =>
            match Rolling.addTrackToPlaylist ARCHIVE MONTHLY url w' with
            | (Normal _, w'') =>
                (Normal (end_ (status 200 res)),
                 recorded w'' [ConsoleLog MsgJson])
            | (Throw _, w'') =>
                (Normal (end_ (status 200 (end_ (status 500 res)))), w'')
            end
        end
      else (Normal (end_ (status 400 res)), w)
  end.
Proof.
  unfold Rolling.handler, getSpotifyAuthorizeURL. run_route.
  destruct (Rolling.parseSlackWebhookPayload body dev) as [tokens|e];
    [|reflexivity].
  destruct (isValidSlackWebhookPayload tokens); [|reflexivity].
  change (negb true) with false. cbv iota. unfold recorded.
  destruct (getSpotifyURI parse (text_of tokens) _) as [[[|url]|e] w'];
    try reflexivity.
  destruct (Rolling.addTrackToPlaylist ARCHIVE MONTHLY url w')
    as [[[]|e] w'']; reflexivity.
Qed.

(** What the route can answer, and what each answer says about the
    service.  400: no request was made and no playlist changed.  500: the
    refresh, and nothing else, was requested and rejected, and no playlist
    changed.  200: the refresh was accepted.  An exception instead of an
    answer: no request was made either.  There is no other answer, and on
    a fresh response object exactly one is sent. *)
Theorem route_answers parse ARCHIVE MONTHLY dev body res w :
  sent res = None ->
  match Rolling.handler parse ARCHIVE MONTHLY dev body res w with
  | (Normal res', w') =>
      (sent res' = Some 400%Z /\
       playlists w' = playlists w /\ outcomes w' = outcomes w) \/
      (sent res' = Some 500%Z /\ accepted w = false /\
       outcomes w' = tail (outcomes w) /\ playlists w' = playlists w /\
       List.filter is_request (new_events w w') = [ApiRefreshAccessToken]) \/
      (sent res' = Some 200%Z /\ accepted w = true)
  | (Throw e, w') => playlists w' = playlists w /\ outcomes w' = outcomes w
  end.
Proof.
  intros Hres. rewrite handler_run.
  destruct (Rolling.parseSlackWebhookPayload body dev) as [tokens|e];
    [|split; reflexivity].
  destruct (isValidSlackWebhookPayload tokens);
    [|left; split; [apply sent_400_first, Hres|split; reflexivity]].
  pose proof (getSpotifyURI_frame parse (text_of tokens)
                (recorded w [ConsoleLog MsgAuthorizeURL])) as (Hp & Ho & _).
  pose proof (extractor_trace parse (text_of tokens)
                (recorded w [ConsoleLog MsgAuthorizeURL])) as (logs & Ht & Hlogs).
  destruct (getSpotifyURI parse (text_of tokens) _) as [[[|url]|e] w'];
    simpl snd in Hp, Ho, Ht;
    [left; split; [apply sent_400_first, Hres|split; assumption]
    | |split; assumption].
  assert (Hacc : accepted w' = accepted w)
    by (unfold accepted; rewrite Ho; reflexivity).
  rewrite addTrackToPlaylist_run. cbv zeta. rewrite <- accepted_outcome, Hacc.
  destruct (accepted w) eqn:Hw.
  - destruct (pruneOldTracksFromPlaylist _ _ _ _) as [[[]|e] pruned];
      cbv iota; right; right;
      (split; [apply sent_200, Hres|reflexivity]).
  - cbv iota. right. left. split; [apply sent_500_first, Hres|].
    split; [reflexivity|]. unfold new_events, answered. rewrite Hacc.
    cbn [outcomes playlists trace]. rewrite Ho, Hp, Ht.
    split; [reflexivity|]. split; [reflexivity|].
    unfold recorded. cbn [trace].
    rewrite <- !app_assoc, drop_app_length. simpl.
    rewrite List.filter_app. simpl. rewrite Hlogs. reflexivity.
Qed.

Lemma route_answers_witness :
  match Rolling.handler SpotifyUri.parse (js "archive") (js "monthly") true
          (TString documented_payload) fresh_res refresh_down with
  | (Normal res', w') =>
      (sent res' = Some 400%Z /\
       playlists w' = playlists refresh_down /\
       outcomes w' = outcomes refresh_down) \/
      (sent res' = Some 500%Z /\ accepted refresh_down = false /\
       outcomes w' = tail (outcomes refresh_down) /\
       playlists w' = playlists refresh_down /\
       List.filter is_request (new_events refresh_down w')
       = [ApiRefreshAccessToken]) \/
      (sent res' = Some 200%Z /\ accepted refresh_down = true)
  | (Throw e, w') =>
      playlists w' = playlists refresh_down /\
      outcomes w' = outcomes refresh_down
  end.
Proof.
  apply (route_answers SpotifyUri.parse (js "archive") (js "monthly") true
           (TString documented_payload) fresh_res refresh_down).
  reflexivity.
Defined.

Lemma rolling_refresh_failure_is_500_witness :
  exists final res',
    Rolling.handler SpotifyUri.parse (js "archive") (js "monthly") true
      (TString documented_payload) fresh_res refresh_down
    = (Normal res', final) /\
    sent res' = Some 500%Z /\
    trace final
    = trace (extracted refresh_down documented_track) ++ [ApiRefreshAccessToken].
Proof.
  destruct (rolling_refresh_failure_is_500 SpotifyUri.parse (js "archive")
              (js "monthly") true (TString documented_payload)
              (TObject (split_reduce documented_payload)) documented_track
              fresh_res refresh_down
              (extracted refresh_down documented_track))
    as (final & res' & _ & Htrace & _ & Hroute & Hsent).
  - reflexivity.
  - vm_compute. reflexivity.
  - vm_compute. reflexivity.
  - reflexivity.
  - reflexivity.
  - exists final, res'. split; [exact Hroute|]. split; [exact Hsent|exact Htrace].
Defined.

(** ** The route, src/pages/api/dj.ts *)

(** The exceptions of the extractor: the decoder's or the parser's. *)
Lemma extractor_throws parse text w e :
  (getSpotifyURI parse text w).1 = Throw e ->
  e = URIError \/ exists url, parse url = Throw e.
Proof.
  unfold getSpotifyURI. run_route.
  destruct (decodeURIComponent text) as [decoded|e'] eqn:Hd.
  - destruct (truthy (candidate decoded)); [|discriminate].
    destruct (candidate decoded) as [|url]; [discriminate|].
    destruct (parse url) as [parsed|e'] eqn:Hp.
    + destruct (bool_decide (type parsed = js "track")); discriminate.
    + simpl. intros H. injection H as <-. right. exists url. exact Hp.
  - simpl. intros H. injection H as <-. left.
    unfold decodeURIComponent in Hd.
    destruct (escapes text) as [ps|]; [destruct (decode_pieces ps)|];
      congruence.
Qed.

Lemma single_handler_run parse PLAYLIST stringify body res w :
  Single.handler parse PLAYLIST stringify body res w =
  match Single.parseSlackWebhookPayload (TString (stringify body)) with
  | Throw e => (Throw e, recorded w [ConsoleLog MsgBody])
  | Normal tokens =>
      if isValidSlackWebhookPayload tokens then
        match getSpotifyURI parse (text_of tokens)
                (recorded w [ConsoleLog MsgBody; ConsoleLog MsgAuthorizeURL]) with
        | (Throw e, w') => (Throw e, w')
        | (Normal undefined, w') => (Normal (end_ (status 400 res), None), w')
        | (Normal (str url), w') =>
            (Normal (end_ (status 200 res),
                     Some (Single.reactions PLAYLIST
                             {| accessToken := AuthorizationCode |} url
                             (if outcome 0 w' then Normal RefreshedToken
                              else Throw WebapiError))),
             recorded (answered ApiRefreshAccessToken serve_refresh w')
                      [ConsoleLog MsgJson])
        end
      else (Normal (end_ (status 400 res), None),
            recorded w [ConsoleLog MsgBody])
  end.
Proof.
  unfold Single.handler, getSpotifyAuthorizeURL. run_route.
  destruct (Single.parseSlackWebhookPayload (TString (stringify body)))
    as [tokens|e]; [|reflexivity].
  destruct (isValidSlackWebhookPayload tokens); [|reflexivity].
  change (negb true) with false. cbv iota. unfold recorded.
  cbn [playlists outcomes now trace]. rewrite <- app_assoc. simpl app.
  destruct (getSpotifyURI parse (text_of tokens) _) as [[[|url]|e] w'];
    try reflexivity.
  rewrite single_updater_run. reflexivity.
Qed.

(** In dj.ts the route never answers 500: whatever the body and whatever
    the service does, the answer is 400 or 200, or an exception leaves
    the route before any answer.  The [catch] that would send 500 cannot
    be entered. *)
Theorem single_route_never_500 parse PLAYLIST stringify body res w :
  sent res = None ->
  match Single.handler parse PLAYLIST stringify body res w with
  | (Normal (res', _), _) => sent res' = Some 400%Z \/ sent res' = Some 200%Z
  | (Throw e, _) => e = URIError \/ exists url, parse url = Throw e
  end.
Proof.
  intros Hres. rewrite single_handler_run.
  destruct (Single.parseSlackWebhookPayload (TString (stringify body)))
    as [tokens|e] eqn:Hparse; [|discriminate].
  destruct (isValidSlackWebhookPayload tokens);
    [|left; apply sent_400_first, Hres].
  pose proof (extractor_throws parse (text_of tokens)
                (recorded w [ConsoleLog MsgBody; ConsoleLog MsgAuthorizeURL]))
    as Hthrow.
  destruct (getSpotifyURI parse (text_of tokens) _) as [[[|url]|e] w'].
  - left. apply sent_400_first, Hres.
  - right. apply sent_200, Hres.
  - apply (Hthrow e eq_refl).
Qed.

Lemma single_route_never_500_witness :
  match Single.handler SpotifyUri.parse (js "playlist") json_quote
          (TString padded_payload) fresh_res refresh_down with
  | (Normal (res', _), _) => sent res' = Some 400%Z \/ sent res' = Some 200%Z
  | (Throw e, _) => e = URIError \/ exists url, SpotifyUri.parse url = Throw e
  end.
Proof.
  apply (single_route_never_500 SpotifyUri.parse (js "playlist") json_quote
           (TString padded_payload) fresh_res refresh_down).
  reflexivity.
Defined.

(** A whole invocation of dj.ts once a reference is extracted, for every
    outcome of the service: the answer is 200 and is decided before the
    refresh has settled; the add is requested only after an accepted
    refresh, once; a rejection of either request ends in the line
    "Something went wrong" and nowhere else; and the playlist gains the
    track exactly when both requests are accepted. *)
Theorem single_chain_outcomes
    parse PLAYLIST stringify body tokens url res w w' :
  Single.parseSlackWebhookPayload (TString (stringify body)) = Normal tokens ->
  isValidSlackWebhookPayload tokens = true ->
  getSpotifyURI parse (text_of tokens)
    (recorded w [ConsoleLog MsgBody; ConsoleLog MsgAuthorizeURL])
  = (Normal (str url), w') ->
  sent res = None ->
  exists final res',
    Single.invocation parse PLAYLIST stringify body res w = (Normal res', final) /\
    sent res' = Some 200%Z /\
    trace final
    = trace w'
      ++ [ApiRefreshAccessToken; ConsoleLog MsgJson]
      ++ (if outcome 0 w'
          then [ConsoleLog MsgData; ApiAddTracksToPlaylist PLAYLIST [url];
                ConsoleLog (if outcome 1 w' then MsgAddedTracks
                            else MsgSomethingWentWrong WebapiError)]
          else [ConsoleLog (MsgSomethingWentWrong WebapiError)]) /\
    (forall p,
       entries final p
       = entries w' p
         ++ appended (outcome 0 w' && outcome 1 w') PLAYLIST p
              (added_now w' url)).
Proof.
  intros Hparse Hvalid Hextract Hres.
  unfold Single.invocation. run_route.
  rewrite (single_handler_reaches_updater _ _ _ _ _ _ _ _ _
             Hparse Hvalid Hextract).
  cbv beta iota. simpl default. rewrite reactions_run.
  set (asked := answered ApiRefreshAccessToken serve_refresh w').
  assert (Hentries : forall p, entries asked p = entries w' p)
    by (intros p; apply entries_refreshed).
  destruct (outcome 0 w') eqn:H0.
  - cbv iota zeta.
    assert (H1 : outcome 0 (recorded asked [ConsoleLog MsgJson]) = outcome 1 w').
    { unfold asked. change (outcome 0 (recorded ?x _)) with (outcome 0 x).
      apply outcome_answered. }
    rewrite H1.
    destruct (outcome 1 w') eqn:H1'; eexists _, (end_ (status 200 res));
      (split; [reflexivity|]); (split; [apply sent_200, Hres|]);
      (split; [unfold asked, recorded, answered; cbn [trace];
               rewrite <- !app_assoc; reflexivity|]);
      intros p; rewrite entries_recorded, entries_added;
      change (accepted (recorded (recorded asked [ConsoleLog MsgJson])
                          [ConsoleLog MsgData]))
        with (accepted (recorded asked [ConsoleLog MsgJson]));
      rewrite accepted_outcome, H1; unfold appended; simpl andb;
      change (entries (recorded (recorded asked [ConsoleLog MsgJson])
                         [ConsoleLog MsgData]))
        with (entries asked);
      rewrite ?Hentries.
    + destruct (bool_decide_reflect (p = PLAYLIST)) as [->|Hp];
        [reflexivity|rewrite app_nil_r; reflexivity].
    + rewrite app_nil_r. reflexivity.
  - cbv iota. eexists _, (end_ (status 200 res)).
    split; [reflexivity|]. split; [apply sent_200, Hres|]. split.
    + unfold asked, recorded, answered. cbn [trace].
      rewrite <- !app_assoc. reflexivity.
    + intros p. rewrite !entries_recorded, Hentries. unfold appended.
      simpl. rewrite app_nil_r. reflexivity.
Qed.

Lemma single_chain_outcomes_witness :
  exists final res',
    Single.invocation SpotifyUri.parse (js "playlist") json_quote
      (TString padded_payload) fresh_res idle
    = (Normal res', final) /\
    sent res' = Some 200%Z /\
    entries final (js "playlist") = [added_now idle documented_track].
Proof.
  destruct (single_chain_outcomes SpotifyUri.parse (js "playlist") json_quote
              (TString padded_payload)
              (TObject (split_reduce (json_quote (TString padded_payload))))
              documented_track fresh_res idle
              (recorded idle
                 [ConsoleLog MsgBody; ConsoleLog MsgAuthorizeURL;
                  ConsoleLog (MsgText documented_track)]))
    as (final & res' & Hrun & Hsent & _ & Hentries).
  - reflexivity.
  - vm_compute. reflexivity.
  - vm_compute. reflexivity.
  - reflexivity.
  - exists final, res'. split; [exact Hrun|]. split; [exact Hsent|].
    rewrite Hentries. vm_compute. reflexivity.
Defined.
